(** * Periodic-table speller: [calc/elements.py]

    A shallow embedding of the class [PeriodicSpeller] and the proofs of the
    properties its specification states.

    Conventions of the embedding.
    - A Python [str] is a [list ascii]; a one-character string (an element of
      [list(word)]) is an [ascii].  Case mapping is Python's [str.lower] and
      [str.upper] on the ASCII range, where every element symbol lives;
      characters outside [A-Z]/[a-z] are left alone.  On such words
      lowercasing keeps the length; Python's Unicode [str.lower] does not
      always (it turns U+0130 into two characters), so what the code counts
      against [len(word)] after [word = word.lower()] is stated here
      against the length of the lowercased word.
    - A Python [set] of strings is a [gset str].
    - The object is a record of its two attributes; [init] is the object
      [__init__] builds, and the methods that read an attribute take [self].
    - Python integers that only count upwards from zero ([pos],
      [letters_used], [len]) are [nat]; [missing_letters], the result of a
      subtraction, is a [Z]; [float('inf')] is the extra point [Inf] of
      [bound].
    - [next(...)] on an exhausted generator raises [StopIteration]: fallible
      code returns an [option], [None] being the exception.
    - The closure variables [min_missing] and [best_solutions] and the
      accumulator [all_paths] are threaded through the calls explicitly. *)

From Equations Require Import Equations.
From Stdlib Require Import Ascii String ZArith Lia.
From stdpp Require Import list gmap strings.

Local Open Scope Z_scope.
Local Open Scope nat_scope.

(** ** Strings *)

Abbreviation str := (list ascii) (only parsing).

(** One closest match, a tuple
    [(current_path, missing_letters, missing_letters_list)]. *)
Abbreviation match_result := (list str * Z * list ascii)%type (only parsing).

(** Reads a string literal as a Python [str]. *)
Definition py (s : string) : str := list_ascii_of_string s.

Definition is_upper (c : ascii) : bool :=
  (65 <=? nat_of_ascii c) && (nat_of_ascii c <=? 90).

Definition is_lower (c : ascii) : bool :=
  (97 <=? nat_of_ascii c) && (nat_of_ascii c <=? 122).

Definition lower_char (c : ascii) : ascii :=
  if is_upper c then ascii_of_nat (nat_of_ascii c + 32) else c.

Definition upper_char (c : ascii) : ascii :=
  if is_lower c then ascii_of_nat (nat_of_ascii c - 32) else c.

(** [s.lower()] *)
Definition lower (s : str) : str := lower_char <$> s.

(** [s[a:b]] for [0 <= a <= b]; like Python, the slice is cut at the end of
    the string. *)
Definition slice (s : str) (a b : nat) : str := take (b - a) (drop a s).

(** ** The alphabet: [PeriodicSpeller.__init__] *)

Module PeriodicSpeller.

(** The object: its attributes [elements] and [elements_lower]. *)
Record speller : Type := Speller {
  elements : gset str;
  elements_lower : gset str
}.

Definition element_symbols : list string :=
  [ "H"; "He"; "Li"; "Be"; "B"; "C"; "N"; "O"; "F"; "Ne";
    "Na"; "Mg"; "Al"; "Si"; "P"; "S"; "Cl"; "Ar"; "K"; "Ca";
    "Sc"; "Ti"; "V"; "Cr"; "Mn"; "Fe"; "Co"; "Ni"; "Cu"; "Zn";
    "Ga"; "Ge"; "As"; "Se"; "Br"; "Kr"; "Rb"; "Sr"; "Y"; "Zr";
    "Nb"; "Mo"; "Tc"; "Ru"; "Rh"; "Pd"; "Ag"; "Cd"; "In"; "Sn";
    "Sb"; "Te"; "I"; "Xe"; "Cs"; "Ba"; "La"; "Ce"; "Pr"; "Nd";
    "Pm"; "Sm"; "Eu"; "Gd"; "Tb"; "Dy"; "Ho"; "Er"; "Tm"; "Yb";
    "Lu"; "Hf"; "Ta"; "W"; "Re"; "Os"; "Ir"; "Pt"; "Au"; "Hg";
    "Tl"; "Pb"; "Bi"; "Po"; "At"; "Rn"; "Fr"; "Ra"; "Ac"; "Th";
    "Pa"; "U"; "Np"; "Pu"; "Am"; "Cm"; "Bk"; "Cf"; "Es"; "Fm";
    "Md"; "No"; "Lr"; "Rf"; "Db"; "Sg"; "Bh"; "Hs"; "Mt"; "Ds";
    "Rg"; "Cn"; "Nh"; "Fl"; "Mc"; "Lv"; "Ts"; "Og" ]%string.

(** [__init__]: [self.elements] is the set of symbols, and
    [self.elements_lower = {elem.lower() for elem in self.elements}]. *)
Definition init : speller :=
  let elements := list_to_set (py <$> element_symbols) in
  {| elements := elements; elements_lower := set_map lower elements |}.

(** ** [find_missing_letters] *)

(** [l.remove(x)]: the first occurrence of [x] goes; [None] is the
    [ValueError] Python raises when [x] is not in the list. *)
Fixpoint list_remove (x : ascii) (l : list ascii) : option (list ascii) :=
  match l with
  | [] => None
  | y :: l' => if decide (x = y) then Some l' else (y ::.) <$> list_remove x l'
  end.

(** The body of [for letter in covered_letters], on the pair
    [(word_remaining, covered_remaining)]. *)
Definition remove_matched (letter : ascii) (st : list ascii * list ascii)
  : option (list ascii * list ascii) :=
  let '(word_remaining, covered_remaining) := st in
  if decide (letter ∈ word_remaining)
  then word_remaining' ← list_remove letter word_remaining;
       covered_remaining' ← list_remove letter covered_remaining;
       Some (word_remaining', covered_remaining')
  else Some (word_remaining, covered_remaining).

(** A [for] loop whose body may raise. *)
Fixpoint for_each {A S : Type} (body : A → S → option S) (l : list A) (st : S)
  : option S :=
  match l with
  | [] => Some st
  | x :: l' => st' ← body x st; for_each body l' st'
  end.

Definition find_missing_letters (word : str) (solution : list str)
  : option (list ascii) :=
  let word := lower word in
  let covered_letters :=
    foldl (λ acc element, acc ++ lower element) [] solution in
  match for_each remove_matched covered_letters (word, covered_letters) with
  | Some (word_remaining, _) => Some (upper_char <$> word_remaining)
  | None => None
  end.

(** ** The methods that read the alphabet *)

Section methods.

Context (self : speller).

(** [next(e for e in self.elements if e.lower() == prefix)]: the first
    element, in the set's iteration order, whose lowercase form is [prefix];
    [None] when the generator is exhausted. *)
Definition original_case (prefix : str) : option str :=
  head (filter (λ e, lower e = prefix) (base.elements (elements self))).

(** ** [find_all_spellings] *)

(** The nested function [backtrack]; the list [all_paths] it appends to is
    passed in and handed back.  The loop [for length in [1, 2]] is written
    out, one step per length. *)
Equations? backtrack (remaining : str) (current_path : list str)
    (all_paths : list (list str)) : option (list (list str))
    by wf (length remaining) lt :=
  backtrack [] current_path all_paths := Some (all_paths ++ [current_path]);
  backtrack (c :: r) current_path all_paths :=
    let remaining := c :: r in
    all_paths ←
      (if decide (1 ≤ length remaining) then
         let prefix := slice remaining 0 1 in
         if decide (prefix ∈ elements_lower self) then
           original_case ← original_case prefix;
           backtrack (drop 1 remaining) (current_path ++ [original_case])
             all_paths
         else Some all_paths
       else Some all_paths);
    (if decide (2 ≤ length remaining) then
       let prefix := slice remaining 0 2 in
       if decide (prefix ∈ elements_lower self) then
         original_case ← original_case prefix;
         backtrack (drop 2 remaining) (current_path ++ [original_case])
           all_paths
       else Some all_paths
     else Some all_paths).
Proof.
  all: rewrite ?length_drop; simpl; lia.
Qed.

Definition find_all_spellings (word : str) : option (list (list str)) :=
  let word := lower word in
  backtrack word [] [].

(** ** [find_closest_match] *)

(** The values [min_missing] takes: [float('inf')] or an integer. *)
Inductive bound : Type :=
  | Inf
  | Fin (z : Z).

Definition le_bound (z : Z) (b : bound) : bool :=
  match b with Inf => true | Fin m => (z <=? m)%Z end.

Definition lt_bound (z : Z) (b : bound) : bool :=
  match b with Inf => true | Fin m => (z <? m)%Z end.

(** The [nonlocal] variables of [try_partial_match]. *)
Record search_state : Type := SearchState {
  min_missing : bound;
  best_solutions : list match_result
}.

(** The branch [if pos >= len(word)] of [try_partial_match]. *)
Definition record_path (word : str) (current_path : list str)
    (missing_letters : Z) (st : search_state) : option search_state :=
  if le_bound missing_letters (min_missing st) then
    let st :=
      if lt_bound missing_letters (min_missing st)
      then SearchState (Fin missing_letters) []
      else st in
    missing_letters_list ← find_missing_letters word current_path;
    Some (SearchState (min_missing st)
            (best_solutions st ++
               [(current_path, missing_letters, missing_letters_list)]))
  else Some st.

(** The nested function [try_partial_match]; [word] is the lowercased word
    of the enclosing call. *)
Equations? try_partial_match (word : str) (pos : nat)
    (current_path : list str) (letters_used : nat) (st : search_state)
    : option search_state by wf (length word - pos) lt :=
  try_partial_match word pos current_path letters_used st
    with decide (length word ≤ pos) := {
    | left _ =>
        let missing_letters :=
          (Z.of_nat (length word) - Z.of_nat letters_used)%Z in
        record_path word current_path missing_letters st
    | right _ =>
        st ←
          (if decide (pos + 1 ≤ length word) then
             let prefix := slice word pos (pos + 1) in
             if decide (prefix ∈ elements_lower self) then
               original_case ← original_case prefix;
               try_partial_match word (pos + 1)
                 (current_path ++ [original_case]) (letters_used + 1) st
             else Some st
           else Some st);
        st ←
          (if decide (pos + 2 ≤ length word) then
             let prefix := slice word pos (pos + 2) in
             if decide (prefix ∈ elements_lower self) then
               original_case ← original_case prefix;
               try_partial_match word (pos + 2)
                 (current_path ++ [original_case]) (letters_used + 2) st
             else Some st
           else Some st);
        try_partial_match word (pos + 1) current_path letters_used st }.
Proof.
  all: lia.
Qed.

Definition find_closest_match (word : str) : option (list match_result) :=
  let word := lower word in
  st ← try_partial_match word 0 [] 0 (SearchState Inf []);
  Some (best_solutions st).

(** ** [spell_word] *)

Record spell_result : Type := SpellResult {
  word : str;
  can_be_spelled : bool;
  exact_solutions : list (list str);
  closest_matches : list match_result
}.

Definition spell_word (word : str) : option spell_result :=
  exact_solutions ← find_all_spellings word;
  closest_matches ← find_closest_match word;
  Some (SpellResult word
          (bool_decide (0 < length exact_solutions))
          exact_solutions
          (if decide (exact_solutions = []) then closest_matches else [])).

(** ** The searches, as the specification words them

    These definitions are not taken from the code: they restate sections 4.2
    to 4.4 of the specification as pure functions, and the theorems below
    relate the code to them. *)

(** The symbol a chunk of the lowercased word stands for, if any. *)
Definition symbol (chunk : str) : option str :=
  if decide (chunk ∈ elements_lower self) then original_case chunk else None.

Definition with_symbol (chunk : str) (tilings : list (list str))
  : list (list str) :=
  from_option (λ e, (e ::.) <$> tilings) [] (symbol chunk).

(** Section 4.2: all full tilings of [rest], the one-letter chunk tried
    before the two-letter chunk at each position. *)
Fixpoint tilings (rest : str) : list (list str) :=
  match rest with
  | [] => [[]]
  | c :: rest1 =>
      with_symbol [c] (tilings rest1) ++
      match rest1 with
      | c' :: rest2 => with_symbol [c; c'] (tilings rest2)
      | [] => []
      end
  end.

(** Section 4.3: all partial tilings of [rest], in depth-first order: the
    one-letter chunk, then the two-letter chunk, then the skip. *)
Fixpoint partial_tilings (rest : str) : list (list str) :=
  match rest with
  | [] => [[]]
  | c :: rest1 =>
      with_symbol [c] (partial_tilings rest1) ++
      match rest1 with
      | c' :: rest2 => with_symbol [c; c'] (partial_tilings rest2)
      | [] => []
      end ++
      partial_tilings rest1
  end.

End methods.

(** [sum(len(symbol) for symbol in tiling)] *)
Definition letters_covered (tiling : list str) : nat :=
  sum_list_with length tiling.

(** [len(word) - sum(len(symbol) for symbol in tiling)] *)
Definition missing_count (word : str) (tiling : list str) : Z :=
  (Z.of_nat (length word) - Z.of_nat (letters_covered tiling))%Z.

(** Section 4.4: one-for-one removal of a letter, where it occurs. *)
Fixpoint remove_one (x : ascii) (l : list ascii) : list ascii :=
  match l with
  | [] => []
  | y :: l' => if decide (x = y) then l' else y :: remove_one x l'
  end.

(** The bag difference [letters - covered], in the order of [letters]. *)
Definition bag_difference (letters covered : list ascii) : list ascii :=
  foldl (λ remaining x, remove_one x remaining) letters covered.

(** How often a letter occurs in a bag of letters. *)
Definition occurrences (c : ascii) (l : list ascii) : nat :=
  length (filter (c =.) l).

Definition missing_letters (word : str) (tiling : list str) : list ascii :=
  upper_char <$> bag_difference (lower word) (lower (concat tiling)).

(** The least missing count of a list of tilings. *)
Definition min_bound (z : Z) (b : bound) : bound :=
  match b with Inf => Fin z | Fin m => Fin (Z.min z m) end.

Definition least_missing (word : str) (ts : list (list str)) : bound :=
  foldr (λ t b, min_bound (missing_count word t) b) Inf ts.

(** [t] misses exactly [b] letters of [word]. *)
Definition achieves (word : str) (b : bound) (t : list str) : Prop :=
  Fin (missing_count word t) = b.

#[global] Instance bound_eq_dec : EqDecision bound.
Proof. solve_decision. Defined.

#[global] Instance achieves_dec word b t : Decision (achieves word b t).
Proof. unfold achieves. apply _. Defined.

(** The tilings of [ts] that miss the fewest letters, in the order of [ts]. *)
Definition best_tilings (word : str) (ts : list (list str))
  : list (list str) :=
  filter (achieves word (least_missing word ts)) ts.

(** What the search reports for a tiling. *)
Definition closest_match (word : str) (t : list str) : match_result :=
  (t, missing_count word t, missing_letters word t).

(** The state of the search once the tilings [ts] have been visited. *)
Definition state_after (word : str) (ts : list (list str)) : search_state :=
  SearchState (least_missing word ts)
    (closest_match word <$> best_tilings word ts).

(** What [try_partial_match] does at the end of the path that extends
    [current_path], with [letters_used] letters covered, by the tiling [t]. *)
Definition visit (word : str) (current_path : list str) (letters_used : nat)
    (t : list str) (st : search_state) : option search_state :=
  record_path word (current_path ++ t)
    (Z.of_nat (length word) - Z.of_nat (letters_used + letters_covered t))%Z
    st.

End PeriodicSpeller.

Import PeriodicSpeller.

(** * The module-level function [process_file]

    Opening and reading the input file, writing the two output files and
    printing are left out.  What is modelled is what [process_file] computes
    from the lines the input file yields: the list [words], and the lists
    [results] and [missing_letters_summary] its loop builds. *)

(** [c.isspace()], on the ASCII range: tab to carriage return, the four
    separators [\x1c] to [\x1f], and the space. *)
Definition is_space (c : ascii) : bool :=
  ((9 <=? nat_of_ascii c) && (nat_of_ascii c <=? 13))
  || ((28 <=? nat_of_ascii c) && (nat_of_ascii c <=? 32)).

(** [s.lstrip()] *)
Fixpoint lstrip (s : str) : str :=
  match s with
  | [] => []
  | c :: s' => if is_space c then lstrip s' else s
  end.

(** [s.rstrip()] *)
Definition rstrip (s : str) : str := reverse (lstrip (reverse s)).

(** [s.strip()] *)
Definition strip (s : str) : str := rstrip (lstrip s).

(** [sep.join(parts)] *)
Fixpoint join (sep : str) (parts : list str) : str :=
  match parts with
  | [] => []
  | part :: parts' =>
      match parts' with
      | [] => part
      | _ :: _ => part ++ sep ++ join sep parts'
      end
  end.

(** [words = [line.strip() for line in f if line.strip()]] *)
Definition read_words (lines : list str) : list str :=
  strip <$> filter (λ line, strip line ≠ []) lines.

(** The body of [for word in words], on the pair
    [(results, missing_letters_summary)]; [best_match[2]] is a list of
    one-character strings.  [None] is an exception: one raised by
    [spell_word], or the [IndexError] of [result['closest_matches'][0]]. *)
Definition process_word (speller : speller) (word : str)
    (st : list spell_result * list str)
  : option (list spell_result * list str) :=
  match spell_word speller word with
  | None => None
  | Some result =>
      let results := st.1 ++ [result] in
      if negb (can_be_spelled result)
         && bool_decide (closest_matches result ≠ [])
      then
        match closest_matches result !! 0 with
        | None => None
        | Some best_match =>
            let missing_letters := best_match.2 in
            if decide (missing_letters ≠ []) then
              Some (results,
                    st.2 ++ [word ++ py ": "
                             ++ join (py ", ") ((λ c, [c]) <$> missing_letters)])
            else Some (results, st.2)
        end
      else Some (results, st.2)
  end.

(** [process_file], from the lines of the input file to
    [(results, missing_letters_summary)]. *)
Definition process_lines (lines : list str)
  : option (list spell_result * list str) :=
  let speller := init in
  let words := read_words lines in
  for_each (process_word speller) words ([], []).

(** What a line of [missing_letters_summary] is for a result: the word, a
    colon, and the missing letters of the first closest match, which there
    must be, separated by commas. *)
Definition summary_line (result : spell_result) (line : str) : Prop :=
  ∃ (tiling : list str) (missing_count : Z) (letters : list ascii)
    (rest : list match_result),
    closest_matches result = (tiling, missing_count, letters) :: rest ∧
    letters ≠ [] ∧
    line = word result ++ py ": " ++ join (py ", ") ((λ c, [c]) <$> letters).

(** * [calc/calc2.py]: grouping the summary lines by their single letter *)

(** [s.split(sep)] for a one-character separator. *)
Fixpoint split (sep : ascii) (s : str) : list str :=
  match s with
  | [] => [[]]
  | c :: s' =>
      if decide (c = sep) then [] :: split sep s'
      else match split sep s' with
           | part :: parts => (c :: part) :: parts
           | [] => [[c]]
           end
  end.

(** The body of [for line in data] in [analyze_single_missing_letters], on
    the dictionary [letter_countries], a [defaultdict(list)].  [None] is the
    [ValueError] of the unpacking [country, letters = line.split(':')]. *)
Definition analyze_line (line : str)
    (letter_countries : gmap str (list str))
  : option (gmap str (list str)) :=
  if decide (":"%char ∈ line) then
    match split ":" line with
    | [country; letters] =>
        let country := strip country in
        let missing_letters := strip <$> split "," letters in
        if decide (length missing_letters = 1) then
          match missing_letters !! 0 with
          | Some letter =>
              Some (<[letter :=
                        default [] (letter_countries !! letter) ++ [country]]>
                      letter_countries)
          | None => None
          end
        else Some letter_countries
    | _ => None
    end
  else Some letter_countries.

Definition analyze_single_missing_letters (data : list str)
  : option (gmap str (list str)) :=
  for_each analyze_line data ∅.

(** A character that is neither a colon, nor a comma, nor white space. *)
Definition plain (c : ascii) : Prop :=
  c ≠ ":"%char ∧ c ≠ ","%char ∧ is_space c = false.

#[global] Instance plain_dec c : Decision (plain c).
Proof. unfold plain. apply _. Defined.

(** * Proofs *)

(** ** Case mapping *)

Lemma lower_char_idemp (c : ascii) : lower_char (lower_char c) = lower_char c.
Proof. by destruct c as [[] [] [] [] [] [] [] []]. Qed.

Lemma lower_length (s : str) : length (lower s) = length s.
Proof. apply length_fmap. Qed.

Lemma lower_app (s1 s2 : str) : lower (s1 ++ s2) = lower s1 ++ lower s2.
Proof. apply fmap_app. Qed.

Lemma lower_idemp (s : str) : lower (lower s) = lower s.
Proof.
  unfold lower. rewrite <- list_fmap_compose.
  apply list_fmap_ext. intros _ c _. apply lower_char_idemp.
Qed.

Section proofs.

(** The lemmas hold of any object whose [elements_lower] is what [__init__]
    makes it: the lowercase forms of [elements]. *)
Context (self : speller).
Hypothesis Hlower : elements_lower self = set_map lower (elements self).

(** ** The alphabet *)

Lemma elem_of_elements_lower (chunk : str) :
  chunk ∈ elements_lower self ↔ ∃ e, chunk = lower e ∧ e ∈ elements self.
Proof. rewrite Hlower. apply elem_of_map. Qed.

Lemma original_case_spec (chunk e : str) :
  original_case self chunk = Some e →
  e ∈ elements self ∧ lower e = chunk.
Proof.
  unfold original_case. intros H%head_Some_elem_of.
  apply list_elem_of_filter in H as [Hlow Hin%elem_of_elements].
  split; [exact Hin | exact Hlow].
Qed.

(** The generator in [original_case] is never exhausted where the code calls
    it: no [StopIteration]. *)
Lemma original_case_is_Some (chunk : str) :
  chunk ∈ (elements_lower self) → is_Some (original_case self chunk).
Proof.
  intros (e & -> & He)%elem_of_elements_lower.
  unfold original_case. apply head_is_Some.
  intros Hnil. eapply (filter_nil_not_elem_of _ _ e); [exact Hnil|done|].
  by apply elem_of_elements.
Qed.

Lemma symbol_Some (chunk e : str) :
  symbol self chunk = Some e → e ∈ (elements self) ∧ lower e = chunk.
Proof.
  unfold symbol. case_decide; [apply original_case_spec | done].
Qed.

Lemma symbol_length (chunk e : str) :
  symbol self chunk = Some e → length e = length chunk.
Proof. intros [_ <-]%symbol_Some. by rewrite lower_length. Qed.


(** ** The missing-letter calculator *)

Lemma list_remove_elem_of (x : ascii) (l : list ascii) :
  x ∈ l → list_remove x l = Some (remove_one x l).
Proof.
  induction l as [|y l IH]; simpl.
  - by intros ?%elem_of_nil.
  - intros Hx. case_decide; [done|].
    apply elem_of_cons in Hx as [?|Hx]; [done|].
    by rewrite (IH Hx).
Qed.

Lemma remove_one_not_elem_of (x : ascii) (l : list ascii) :
  x ∉ l → remove_one x l = l.
Proof.
  induction l as [|y l IH]; simpl; [done|].
  intros [? ?]%not_elem_of_cons. case_decide; [done|]. by rewrite IH.
Qed.

Lemma remove_one_elem_of (x : ascii) (l : list ascii) :
  x ∈ l → l ≡ₚ x :: remove_one x l.
Proof.
  induction l as [|y l IH]; simpl.
  - by intros ?%elem_of_nil.
  - intros Hx. case_decide as Hxy; [by subst|].
    apply elem_of_cons in Hx as [?|Hx]; [done|].
    etrans; [apply Permutation_skip, (IH Hx) | apply Permutation_swap].
Qed.

Lemma remove_one_perm (x : ascii) (l1 l2 : list ascii) :
  l1 ≡ₚ l2 → remove_one x l1 ≡ₚ remove_one x l2.
Proof.
  intros Hp. destruct (decide (x ∈ l1)) as [Hx|Hx].
  - apply (inj (x ::.)).
    rewrite <- (remove_one_elem_of x l1 Hx).
    rewrite <- (remove_one_elem_of x l2); [done|]. by rewrite <- Hp.
  - rewrite !remove_one_not_elem_of; [done| |done]. by rewrite <- Hp.
Qed.

Lemma bag_difference_cons (w : list ascii) (x : ascii) (c : list ascii) :
  bag_difference w (x :: c) = bag_difference (remove_one x w) c.
Proof. done. Qed.

(** Position plays no part: the difference of two rearrangements of the same
    letters is the same bag. *)
Lemma bag_difference_perm (w1 w2 c : list ascii) :
  w1 ≡ₚ w2 → bag_difference w1 c ≡ₚ bag_difference w2 c.
Proof.
  revert w1 w2. induction c as [|x c IH]; intros w1 w2 Hp; [done|].
  rewrite !bag_difference_cons. by apply IH, remove_one_perm.
Qed.

Lemma bag_difference_length (w c : list ascii) :
  c ⊆+ w → length (bag_difference w c) + length c = length w.
Proof.
  revert w. induction c as [|x c IH]; intros w Hc; [simpl; lia|].
  assert (x ∈ w) as Hx.
  { eapply elem_of_submseteq; [|exact Hc]. apply list_elem_of_here. }
  pose proof (remove_one_elem_of x w Hx) as Hp.
  rewrite bag_difference_cons.
  rewrite (Permutation_length Hp). simpl.
  rewrite <- (IH (remove_one x w)); [lia|].
  rewrite Hp in Hc. by apply (submseteq_app_inv_l _ _ [x]).
Qed.

Lemma occurrences_cons (c y : ascii) (l : list ascii) :
  occurrences c (y :: l)
  = (if decide (c = y) then 1 else 0) + occurrences c l.
Proof.
  unfold occurrences. rewrite filter_cons. by case_decide.
Qed.

Lemma occurrences_remove_one (c x : ascii) (l : list ascii) :
  occurrences c (remove_one x l)
  = occurrences c l - (if decide (c = x) then 1 else 0).
Proof.
  induction l as [|y l IH]; [done|].
  simpl remove_one. destruct (decide (x = y)) as [->|Hxy].
  - rewrite occurrences_cons. case_decide; lia.
  - rewrite !occurrences_cons, IH.
    repeat case_decide; try lia. congruence.
Qed.

(** [bag_difference] is the difference of bags: each letter occurs as often
    as in [w], less its occurrences in [cs]. *)
Lemma bag_difference_occurrences (c : ascii) (w cs : list ascii) :
  occurrences c (bag_difference w cs) = occurrences c w - occurrences c cs.
Proof.
  revert w. induction cs as [|x cs IH]; intros w.
  - unfold bag_difference. simpl. unfold occurrences at 3. simpl. lia.
  - rewrite bag_difference_cons, IH, occurrences_remove_one, occurrences_cons.
    lia.
Qed.

Lemma remove_one_sublist (x : ascii) (l : list ascii) :
  remove_one x l `sublist_of` l.
Proof.
  induction l as [|y l IH]; simpl; [done|].
  case_decide; [by apply sublist_cons|by apply sublist_skip].
Qed.

Lemma bag_difference_sublist (w cs : list ascii) :
  bag_difference w cs `sublist_of` w.
Proof.
  revert w. induction cs as [|x cs IH]; intros w; [done|].
  rewrite bag_difference_cons. etrans; [apply IH|apply remove_one_sublist].
Qed.

(** The loop of [find_missing_letters] never raises, and leaves the bag
    difference in [word_remaining]. *)
Lemma for_each_remove_matched (c w cr : list ascii) :
  c ⊆+ cr →
  ∃ cr', for_each remove_matched c (w, cr) = Some (bag_difference w c, cr').
Proof.
  revert w cr. induction c as [|x c IH]; intros w cr Hc; [by eexists|].
  assert (x ∈ cr) as Hx.
  { eapply elem_of_submseteq; [|exact Hc]. apply list_elem_of_here. }
  rewrite bag_difference_cons. simpl. case_decide as Hw.
  - rewrite (list_remove_elem_of x w Hw), (list_remove_elem_of x cr Hx). simpl.
    apply IH. apply (submseteq_app_inv_l _ _ [x]). simpl.
    by rewrite <- (remove_one_elem_of x cr Hx).
  - simpl. rewrite (remove_one_not_elem_of x w Hw).
    apply IH. etrans; [apply submseteq_cons; reflexivity|exact Hc].
Qed.

Lemma covered_letters_concat (acc : str) (solution : list str) :
  foldl (λ acc element, acc ++ lower element) acc solution
  = acc ++ lower (concat solution).
Proof.
  revert acc. induction solution as [|e sol IH]; intros acc; simpl.
  - by rewrite app_nil_r.
  - rewrite IH, lower_app. by rewrite <- app_assoc.
Qed.

(** [find_missing_letters] is total, and computes the bag difference. *)
Lemma find_missing_letters_spec (word : str) (solution : list str) :
  find_missing_letters word solution = Some (missing_letters word solution).
Proof.
  unfold find_missing_letters, missing_letters. cbv zeta.
  rewrite covered_letters_concat, app_nil_l.
  destruct (for_each_remove_matched (lower (concat solution)) (lower word)
              (lower (concat solution))) as [cr' ->]; done.
Qed.

(** ** Loops and chunks *)

Lemma for_each_app {A S} (body : A → S → option S) (l1 l2 : list A) (st : S) :
  for_each body (l1 ++ l2) st = for_each body l1 st ≫= for_each body l2.
Proof.
  revert st. induction l1 as [|x l1 IH]; intros st; simpl; [done|].
  destruct (body x st) as [st'|]; simpl; [apply IH|done].
Qed.

Lemma for_each_fmap {A B S} (f : A → B) (body : B → S → option S)
    (l : list A) (st : S) :
  for_each body (f <$> l) st = for_each (λ x, body (f x)) l st.
Proof.
  revert st. induction l as [|x l IH]; intros st; simpl; [done|].
  destruct (body (f x) st) as [st'|]; simpl; [apply IH|done].
Qed.

Lemma for_each_ext {A S} (body1 body2 : A → S → option S) (l : list A) (st : S) :
  (∀ x st, body1 x st = body2 x st) →
  for_each body1 l st = for_each body2 l st.
Proof.
  intros Hext. revert st. induction l as [|x l IH]; intros st; simpl; [done|].
  rewrite Hext. destruct (body2 x st) as [st'|]; simpl; [apply IH|done].
Qed.

(** The guarded lookup in both searches is [symbol]: [next] never raises. *)
Lemma chunk_step {S} (chunk : str) (k : str → option S) (st : S) :
  (if decide (chunk ∈ (elements_lower self))
   then e ← original_case self chunk; k e
   else Some st)
  = from_option k (Some st) (symbol self chunk).
Proof.
  unfold symbol. case_decide as Hin; [|done].
  by destruct (original_case_is_Some chunk Hin) as [e ->].
Qed.

#[local] Opaque symbol.

Lemma fmap_prefix_with_symbol (path : list str) (chunk : str)
    (ts : list (list str)) :
  (path ++.) <$> with_symbol self chunk ts
  = from_option (λ e, ((path ++ [e]) ++.) <$> ts) [] (symbol self chunk).
Proof.
  unfold with_symbol. destruct (symbol self chunk) as [e|]; simpl; [|done].
  rewrite <- list_fmap_compose. apply list_fmap_ext.
  intros _ t _. simpl. by rewrite <- app_assoc.
Qed.

Lemma str_ind2 (P : str → Prop) :
  P [] →
  (∀ c, P [] → P [c]) →
  (∀ c c' r, P (c' :: r) → P r → P (c :: c' :: r)) →
  ∀ r, P r.
Proof.
  intros Hnil Hone Htwo r.
  assert (P r ∧ ∀ c, P (c :: r)) as [? _]; [|done].
  induction r as [|c' r [IH1 IH2]]; [by auto|].
  split; [apply IH2|]. intros c. apply Htwo; [apply IH2|apply IH1].
Qed.

(** The equations of the two enumerations. *)
Lemma tilings_nil : tilings self [] = [[]].
Proof. done. Qed.

Lemma tilings_one (c : ascii) :
  tilings self [c] = with_symbol self [c] (tilings self []).
Proof. simpl. by rewrite app_nil_r. Qed.

Lemma tilings_two (c c' : ascii) (r : str) :
  tilings self (c :: c' :: r)
  = with_symbol self [c] (tilings self (c' :: r))
    ++ with_symbol self [c; c'] (tilings self r).
Proof. done. Qed.

Lemma partial_tilings_nil : partial_tilings self [] = [[]].
Proof. done. Qed.

Lemma partial_tilings_one (c : ascii) :
  partial_tilings self [c]
  = with_symbol self [c] (partial_tilings self []) ++ partial_tilings self [].
Proof. done. Qed.

Lemma partial_tilings_two (c c' : ascii) (r : str) :
  partial_tilings self (c :: c' :: r)
  = with_symbol self [c] (partial_tilings self (c' :: r))
    ++ with_symbol self [c; c'] (partial_tilings self r)
    ++ partial_tilings self (c' :: r).
Proof. done. Qed.

#[local] Opaque tilings partial_tilings.

(** ** The exact decomposer *)

(** [backtrack] appends to [all_paths], in order, the extensions of
    [current_path] by the full tilings of [remaining]. *)
Lemma backtrack_spec (remaining : str) :
  ∀ (current_path : list str) (all_paths : list (list str)),
    backtrack self remaining current_path all_paths
    = Some (all_paths ++ ((current_path ++.) <$> tilings self remaining)).
Proof.
  induction remaining as [|c IH0|c c' r IH1 IH2] using str_ind2;
    intros path all.
  - rewrite backtrack_equation_1, tilings_nil. simpl. by rewrite app_nil_r.
  - rewrite backtrack_equation_2, tilings_one. cbv zeta.
    change (slice [c] 0 1) with [c]. change (drop 1 [c]) with (@nil ascii).
    rewrite (decide_True (P := 1 ≤ length [c])) by (simpl; lia).
    rewrite chunk_step, fmap_prefix_with_symbol.
    destruct (symbol self [c]) as [e|]; simpl; rewrite ?IH0; simpl.
    all: by rewrite ?app_nil_r.
  - rewrite backtrack_equation_2, tilings_two. cbv zeta.
    change (slice (c :: c' :: r) 0 1) with [c].
    change (slice (c :: c' :: r) 0 2) with [c; c'].
    change (drop 1 (c :: c' :: r)) with (c' :: r).
    change (drop 2 (c :: c' :: r)) with r.
    rewrite (decide_True (P := 1 ≤ length (c :: c' :: r))) by (simpl; lia).
    rewrite fmap_app, !fmap_prefix_with_symbol, chunk_step.
    destruct (symbol self [c]) as [e1|]; simpl; rewrite ?IH1; simpl.
    all: rewrite chunk_step.
    all: destruct (symbol self [c; c']) as [e2|]; simpl; rewrite ?IH2.
    all: by rewrite ?app_nil_r, <- ?app_assoc.
Qed.

Lemma find_all_spellings_spec (word : str) :
  find_all_spellings self word = Some (tilings self (lower word)).
Proof.
  unfold find_all_spellings. cbv zeta. rewrite backtrack_spec. simpl.
  f_equal. apply list_fmap_id.
Qed.

(** ** The closest-match search *)

Lemma slice_drop (word rest : str) (pos n : nat) :
  drop pos word = rest → slice word pos (pos + n) = take n rest.
Proof.
  intros <-. unfold slice. f_equal. lia.
Qed.

Lemma drop_next (word rest : str) (pos n : nat) :
  drop pos word = rest → drop (pos + n) word = drop n rest.
Proof. intros <-. symmetry. apply drop_drop. Qed.

Lemma drop_length_eq (word rest : str) (pos : nat) :
  drop pos word = rest → length word - pos = length rest.
Proof. intros <-. by rewrite length_drop. Qed.

Lemma letters_covered_cons (e : str) (t : list str) :
  letters_covered (e :: t) = length e + letters_covered t.
Proof. done. Qed.

Lemma for_each_with_symbol (word : str) (path : list str) (used : nat)
    (chunk : str) (ts : list (list str)) (st : search_state) :
  for_each (visit word path used) (with_symbol self chunk ts) st
  = from_option
      (λ e, for_each (visit word (path ++ [e]) (used + length chunk)) ts st)
      (Some st) (symbol self chunk).
Proof.
  unfold with_symbol. destruct (symbol self chunk) as [e|] eqn:He; simpl; [|done].
  rewrite for_each_fmap. apply for_each_ext. intros t st'.
  unfold visit. rewrite letters_covered_cons, (symbol_length _ _ He).
  rewrite <- app_assoc. simpl. do 2 f_equal. lia.
Qed.

Lemma bind_Some {A} (m : option A) : m ≫= Some = m.
Proof. by destruct m. Qed.

(** [try_partial_match] visits, in order, the extensions of [current_path]
    by the partial tilings of what is left of the word from [pos] on. *)
Lemma try_partial_match_spec (word rest : str) :
  ∀ (pos : nat) (current_path : list str) (letters_used : nat)
    (st : search_state),
    drop pos word = rest →
    try_partial_match self word pos current_path letters_used st
    = for_each (visit word current_path letters_used)
        (partial_tilings self rest) st.
Proof.
  induction rest as [|c IH0|c c' r IH1 IH2] using str_ind2;
    intros pos path used st Hdrop;
    pose proof (drop_length_eq _ _ _ Hdrop) as Hlen; simpl in Hlen;
    rewrite try_partial_match_equation_1;
    unfold try_partial_match_unfold_clause_1;
    destruct (decide (length word ≤ pos)); try lia; cbv beta iota zeta.
  - rewrite partial_tilings_nil.
    simpl. rewrite bind_Some. unfold visit.
    by rewrite app_nil_r, Nat.add_0_r.
  - pose proof (drop_next _ _ _ 1 Hdrop) as H1. simpl in H1.
    destruct (decide (pos + 1 ≤ length word)); [|lia].
    destruct (decide (pos + 2 ≤ length word)); [lia|].
    rewrite (slice_drop _ _ _ 1 Hdrop). simpl take.
    rewrite partial_tilings_one.
    rewrite for_each_app, for_each_with_symbol, chunk_step.
    destruct (symbol self [c]) as [e1|]; simpl; [|apply IH0, H1].
    rewrite (IH0 _ _ _ _ H1).
    destruct (for_each _ _ st) as [st1|]; simpl; [|done].
    apply IH0, H1.
  - pose proof (drop_next _ _ _ 1 Hdrop) as H1. simpl in H1.
    pose proof (drop_next _ _ _ 2 Hdrop) as H2. simpl in H2.
    destruct (decide (pos + 1 ≤ length word)); [|lia].
    destruct (decide (pos + 2 ≤ length word)); [|lia].
    rewrite (slice_drop _ _ _ 1 Hdrop), (slice_drop _ _ _ 2 Hdrop).
    simpl take.
    rewrite partial_tilings_two.
    rewrite for_each_app, for_each_with_symbol, chunk_step.
    assert (∀ st1,
      (from_option
         (λ e, try_partial_match self word (pos + 2) (path ++ [e]) (used + 2) st1)
         (Some st1) (symbol self [c; c'])
       ≫= λ st2, try_partial_match self word (pos + 1) path used st2)
      = for_each (visit word path used)
          (with_symbol self [c; c'] (partial_tilings self r)
           ++ partial_tilings self (c' :: r)) st1) as Hrest.
    { intros st1. rewrite for_each_app, for_each_with_symbol.
      destruct (symbol self [c; c']) as [e2|]; simpl; [|apply IH1, H1].
      rewrite (IH2 _ _ _ _ H2).
      destruct (for_each _ _ st1) as [st2|]; simpl; [|done].
      apply IH1, H1. }
    destruct (symbol self [c]) as [e1|]; simpl;
      [|rewrite chunk_step; apply Hrest].
    rewrite (IH1 _ _ _ _ H1).
    destruct (for_each _ _ st) as [st1|]; simpl; [|done].
    rewrite chunk_step. apply Hrest.
Qed.

(** ** The best-so-far bookkeeping *)

Lemma min_bound_comm (z z' : Z) (b : bound) :
  min_bound z (min_bound z' b) = min_bound z' (min_bound z b).
Proof. destruct b; simpl; f_equal; lia. Qed.

Lemma least_missing_cons (word : str) (t : list str) (ts : list (list str)) :
  least_missing word (t :: ts)
  = min_bound (missing_count word t) (least_missing word ts).
Proof. done. Qed.

Lemma least_missing_snoc (word : str) (ts : list (list str)) (t : list str) :
  least_missing word (ts ++ [t])
  = min_bound (missing_count word t) (least_missing word ts).
Proof.
  induction ts as [|a ts IH]; [done|].
  rewrite <- app_comm_cons, !least_missing_cons, IH. apply min_bound_comm.
Qed.

Lemma least_missing_Inf (word : str) (ts : list (list str)) :
  least_missing word ts = Inf → ts = [].
Proof.
  destruct ts as [|t ts]; [done|]. rewrite least_missing_cons.
  by destruct (least_missing word ts).
Qed.

Lemma least_missing_lower_bound (word : str) (ts : list (list str)) (m : Z) :
  least_missing word ts = Fin m →
  ∀ t, t ∈ ts → (m ≤ missing_count word t)%Z.
Proof.
  revert m. induction ts as [|a ts IH]; intros m Hm t Ht.
  - by apply elem_of_nil in Ht.
  - rewrite least_missing_cons in Hm.
    destruct (least_missing word ts) as [|m'] eqn:Hts; simpl in Hm.
    + apply least_missing_Inf in Hts as ->.
      apply list_elem_of_singleton in Ht as ->. injection Hm as <-. lia.
    + injection Hm as <-. apply elem_of_cons in Ht as [->|Ht]; [lia|].
      specialize (IH m' eq_refl t Ht). lia.
Qed.

Lemma least_missing_attained (word : str) (ts : list (list str)) :
  ts ≠ [] → ∃ t, t ∈ ts ∧ least_missing word ts = Fin (missing_count word t).
Proof.
  induction ts as [|a ts IH]; [done|]. intros _.
  rewrite least_missing_cons.
  destruct ts as [|b ts].
  - exists a. split; [apply list_elem_of_here|done].
  - destruct IH as (t & Ht & ->); [done|]. simpl.
    destruct (Z.min_spec (missing_count word a) (missing_count word t))
      as [[_ ->]|[_ ->]].
    + exists a. split; [apply list_elem_of_here|done].
    + exists t. split; [by apply list_elem_of_further|done].
Qed.

Lemma filter_none {A} (P : A → Prop) `{!∀ x, Decision (P x)} (l : list A) :
  (∀ x, x ∈ l → ¬ P x) → filter P l = [].
Proof.
  induction l as [|x l IH]; intros Hl; [done|].
  rewrite filter_cons_False by (apply Hl, list_elem_of_here).
  apply IH. intros y Hy. by apply Hl, list_elem_of_further.
Qed.

(** Visiting one more tiling keeps [min_missing] and [best_solutions] what
    [state_after] says they are. *)
Lemma record_path_state_after (word : str) (ts : list (list str))
    (t : list str) :
  record_path word t (missing_count word t) (state_after word ts)
  = Some (state_after word (ts ++ [t])).
Proof.
  unfold record_path, state_after, best_tilings.
  rewrite least_missing_snoc, filter_app, find_missing_letters_spec.
  assert (achieves word (Fin (missing_count word t)) t) as Hself by done.
  destruct (least_missing word ts) as [|m] eqn:Hm; simpl.
  - apply least_missing_Inf in Hm as ->.
    by rewrite filter_cons_True.
  - destruct (Z.leb_spec (missing_count word t) m) as [Hle|Hgt];
      [destruct (Z.ltb_spec (missing_count word t) m) as [Hlt|Hge]|]; simpl.
    + rewrite Z.min_l by lia.
      rewrite (filter_none _ ts), filter_cons_True; [done|done|].
      intros t' Ht' Hbest. unfold achieves in Hbest. injection Hbest as Heq.
      pose proof (least_missing_lower_bound _ _ _ Hm _ Ht'). lia.
    + rewrite Z.min_r by lia.
      rewrite filter_cons_True, fmap_app; [done|].
      unfold achieves. f_equal. lia.
    + rewrite Z.min_r by lia.
      rewrite filter_cons_False, app_nil_r; [done|].
      unfold achieves. intros [=]. lia.
Qed.

Lemma visit_root (word : str) (t : list str) (st : search_state) :
  visit word [] 0 t st = record_path word t (missing_count word t) st.
Proof. done. Qed.

Lemma for_each_state_after (word : str) (ts ts' : list (list str)) :
  for_each (visit word [] 0) ts' (state_after word ts)
  = Some (state_after word (ts ++ ts')).
Proof.
  revert ts. induction ts' as [|t ts' IH]; intros ts.
  - by rewrite app_nil_r.
  - change (for_each ?f (t :: ts') ?st) with (f t st ≫= for_each f ts').
    rewrite visit_root, record_path_state_after. simpl.
    rewrite IH. by rewrite <- app_assoc.
Qed.

Lemma missing_count_lower (word : str) (t : list str) :
  missing_count (lower word) t = missing_count word t.
Proof. unfold missing_count. by rewrite lower_length. Qed.

Lemma missing_letters_lower (word : str) (t : list str) :
  missing_letters (lower word) t = missing_letters word t.
Proof. unfold missing_letters. by rewrite lower_idemp. Qed.

(** [find_closest_match] is total and returns, in depth-first order, the
    partial tilings of the lowercased word that miss the fewest letters. *)
Lemma find_closest_match_spec (word : str) :
  find_closest_match self word
  = Some (closest_match (lower word)
            <$> best_tilings (lower word) (partial_tilings self (lower word))).
Proof.
  unfold find_closest_match. cbv zeta.
  rewrite (try_partial_match_spec (lower word) (lower word)) by done.
  change (SearchState Inf []) with (state_after (lower word) []).
  by rewrite for_each_state_after.
Qed.

(** ** What the enumerations hold *)

Lemma elem_of_with_symbol (chunk : str) (ts : list (list str)) (t : list str) :
  t ∈ with_symbol self chunk ts
  ↔ ∃ e t', symbol self chunk = Some e ∧ t = e :: t' ∧ t' ∈ ts.
Proof.
  unfold with_symbol. destruct (symbol self chunk) as [e|]; simpl.
  - rewrite list_elem_of_fmap. split.
    + intros (t' & -> & Ht'). by exists e, t'.
    + intros (e' & t' & [= <-] & -> & Ht'). by exists t'.
  - rewrite elem_of_nil. split; [done|]. by intros (? & ? & ? & _).
Qed.

Lemma lower_concat_cons (e : str) (t : list str) :
  lower (concat (e :: t)) = lower e ++ lower (concat t).
Proof. simpl. apply lower_app. Qed.

Lemma letters_covered_length (t : list str) :
  letters_covered t = length (lower (concat t)).
Proof.
  induction t as [|e t IH]; [done|].
  rewrite letters_covered_cons, lower_concat_cons, length_app, lower_length.
  by rewrite IH.
Qed.

(** The letters of a full tiling are the word. *)
Lemma tilings_concat (rest : str) (t : list str) :
  t ∈ tilings self rest → lower (concat t) = rest.
Proof.
  revert t. induction rest as [|c IH0|c c' r IH1 IH2] using str_ind2; intros t.
  - rewrite tilings_nil. by intros ->%list_elem_of_singleton.
  - rewrite tilings_one.
    intros (e & t' & [_ He]%symbol_Some & -> & Ht')%elem_of_with_symbol.
    by rewrite lower_concat_cons, He, (IH0 _ Ht').
  - rewrite tilings_two. intros [Ht|Ht]%elem_of_app;
      apply elem_of_with_symbol in Ht
        as (e & t' & [_ He]%symbol_Some & -> & Ht');
      rewrite lower_concat_cons, He.
    + by rewrite (IH1 _ Ht').
    + by rewrite (IH2 _ Ht').
Qed.

(** The letters of a partial tiling are letters of the word, in order. *)
Lemma partial_tilings_sublist (rest : str) (t : list str) :
  t ∈ partial_tilings self rest → lower (concat t) `sublist_of` rest.
Proof.
  revert t. induction rest as [|c IH0|c c' r IH1 IH2] using str_ind2; intros t.
  - rewrite partial_tilings_nil. by intros ->%list_elem_of_singleton.
  - rewrite partial_tilings_one. intros [Ht|Ht]%elem_of_app.
    + apply elem_of_with_symbol in Ht
        as (e & t' & [_ He]%symbol_Some & -> & Ht').
      rewrite lower_concat_cons, He. by apply sublist_skip, IH0.
    + by apply sublist_cons, IH0.
  - rewrite partial_tilings_two. intros [Ht|[Ht|Ht]%elem_of_app]%elem_of_app.
    + apply elem_of_with_symbol in Ht
        as (e & t' & [_ He]%symbol_Some & -> & Ht').
      rewrite lower_concat_cons, He. by apply sublist_skip, IH1.
    + apply elem_of_with_symbol in Ht
        as (e & t' & [_ He]%symbol_Some & -> & Ht').
      rewrite lower_concat_cons, He. by apply sublist_skip, sublist_skip, IH2.
    + by apply sublist_cons, IH1.
Qed.

Lemma partial_tilings_covered (rest : str) (t : list str) :
  t ∈ partial_tilings self rest → letters_covered t ≤ length rest.
Proof.
  intros Ht%partial_tilings_sublist%sublist_length.
  by rewrite letters_covered_length.
Qed.

(** The all-skip path is always there. *)
Lemma partial_tilings_not_nil (rest : str) : partial_tilings self rest ≠ [].
Proof.
  induction rest as [|c IH0|c c' r IH1 IH2] using str_ind2.
  - by rewrite partial_tilings_nil.
  - rewrite partial_tilings_one. intros [_ H]%app_eq_nil. exact (IH0 H).
  - rewrite partial_tilings_two.
    intros [_ [_ H]%app_eq_nil]%app_eq_nil. exact (IH1 H).
Qed.

(** On the tilings the search returns, the two ways of counting the missing
    letters agree. *)
Lemma missing_letters_length (word : str) (t : list str) :
  lower (concat t) ⊆+ lower word →
  Z.of_nat (length (missing_letters word t)) = missing_count word t.
Proof.
  intros Hsub. unfold missing_letters, missing_count.
  rewrite length_fmap, letters_covered_length, <- (lower_length word).
  pose proof (bag_difference_length _ _ Hsub). lia.
Qed.

Lemma filter_with_symbol (chunk : str) (ts : list (list str)) (n m : nat) :
  m = n + length chunk →
  filter (λ t, letters_covered t = m) (with_symbol self chunk ts)
  = with_symbol self chunk (filter (λ t, letters_covered t = n) ts).
Proof.
  intros ->. unfold with_symbol.
  destruct (symbol self chunk) as [e|] eqn:He; simpl; [|done].
  induction ts as [|t ts IH]; [done|]. rewrite fmap_cons.
  destruct (decide (letters_covered t = n)) as [Ht|Ht].
  - rewrite !filter_cons_True, fmap_cons, IH; [done|done|].
    rewrite letters_covered_cons, (symbol_length _ _ He). lia.
  - rewrite !filter_cons_False, IH; [done|done|].
    rewrite letters_covered_cons, (symbol_length _ _ He). lia.
Qed.

Lemma filter_partial_tilings_over (rest : str) (m : nat) :
  length rest < m →
  filter (λ t, letters_covered t = m) (partial_tilings self rest) = [].
Proof.
  intros Hm. apply filter_none. intros t Ht%partial_tilings_covered. lia.
Qed.

(** The partial tilings that cover the whole word are the full tilings, in
    the same order: a path with a skip always leaves a letter out. *)
Lemma filter_partial_tilings_full (rest : str) :
  filter (λ t, letters_covered t = length rest) (partial_tilings self rest)
  = tilings self rest.
Proof.
  induction rest as [|c IH0|c c' r IH1 IH2] using str_ind2.
  - by rewrite partial_tilings_nil, tilings_nil.
  - rewrite partial_tilings_one, tilings_one, filter_app.
    rewrite (filter_with_symbol _ _ (length (@nil ascii))) by done.
    rewrite IH0, filter_partial_tilings_over by (simpl; lia).
    by rewrite app_nil_r.
  - rewrite partial_tilings_two, tilings_two, !filter_app.
    rewrite (filter_with_symbol _ _ (length (c' :: r))) by (simpl; lia).
    rewrite (filter_with_symbol _ _ (length r)) by (simpl; lia).
    rewrite IH1, IH2, filter_partial_tilings_over by (simpl; lia).
    by rewrite app_nil_r.
Qed.

Lemma least_missing_lower (word : str) (ts : list (list str)) :
  least_missing (lower word) ts = least_missing word ts.
Proof.
  induction ts as [|t ts IH]; [done|].
  by rewrite !least_missing_cons, IH, missing_count_lower.
Qed.

Lemma closest_match_lower (word : str) (t : list str) :
  closest_match (lower word) t = closest_match word t.
Proof.
  unfold closest_match. by rewrite missing_count_lower, missing_letters_lower.
Qed.

Lemma partial_tilings_missing_nonneg (word : str) (t : list str) :
  t ∈ partial_tilings self (lower word) → (0 ≤ missing_count word t)%Z.
Proof.
  intros Ht%partial_tilings_covered. rewrite lower_length in Ht.
  unfold missing_count. lia.
Qed.

(** The least missing count of the search, as a number. *)
Lemma least_missing_partial_tilings (word : str) :
  ∃ m : Z,
    least_missing word (partial_tilings self (lower word)) = Fin m ∧
    (∀ t, t ∈ partial_tilings self (lower word) → (m ≤ missing_count word t)%Z) ∧
    (∃ t, t ∈ partial_tilings self (lower word) ∧ missing_count word t = m).
Proof.
  destruct (least_missing_attained word (partial_tilings self (lower word)))
    as (t & Ht & Hm); [apply partial_tilings_not_nil|].
  exists (missing_count word t). split; [exact Hm|]. split.
  - apply (least_missing_lower_bound _ _ _ Hm).
  - by exists t.
Qed.

Lemma best_tilings_filter (word : str) (ts : list (list str)) (m : Z) :
  least_missing word ts = Fin m →
  best_tilings word ts = filter (λ t, missing_count word t = m) ts.
Proof.
  intros Hm. unfold best_tilings. rewrite Hm. apply list_filter_iff.
  intros t. unfold achieves. split; [by intros [=]|by intros ->].
Qed.

(** [find_closest_match], with the minimum as a number. *)
Lemma find_closest_match_filter (word : str) (m : Z) :
  least_missing word (partial_tilings self (lower word)) = Fin m →
  find_closest_match self word
  = Some (closest_match word
            <$> filter (λ t, missing_count word t = m)
                  (partial_tilings self (lower word))).
Proof.
  intros Hm. rewrite find_closest_match_spec.
  rewrite (best_tilings_filter (lower word) _ m)
    by (by rewrite least_missing_lower).
  f_equal. rewrite (list_filter_iff _ (λ t, missing_count word t = m)).
  - apply list_fmap_ext. intros _ t _. apply closest_match_lower.
  - intros t. by rewrite missing_count_lower.
Qed.

(** When the word has a full tiling, the best partial tilings are the full
    tilings. *)
Lemma least_missing_spellable (word : str) :
  tilings self (lower word) ≠ [] →
  least_missing word (partial_tilings self (lower word)) = Fin 0.
Proof.
  intros Hne.
  destruct (tilings self (lower word)) as [|t0 ts0] eqn:Hts; [done|].
  assert (t0 ∈ tilings self (lower word)) as Ht0
    by (rewrite Hts; apply list_elem_of_here).
  rewrite <- filter_partial_tilings_full in Ht0.
  apply list_elem_of_filter in Ht0 as [Hfull Ht0].
  rewrite lower_length in Hfull.
  destruct (least_missing_partial_tilings word) as (m & Hm & Hlow & t & Ht & Heq).
  rewrite Hm. f_equal.
  pose proof (Hlow _ Ht0) as Hle.
  pose proof (partial_tilings_missing_nonneg _ _ Ht) as Hge.
  unfold missing_count in Hle, Hge, Heq. lia.
Qed.

Lemma filter_missing_zero (word : str) :
  filter (λ t, missing_count word t = 0%Z) (partial_tilings self (lower word))
  = tilings self (lower word).
Proof.
  rewrite <- filter_partial_tilings_full. apply list_filter_iff.
  intros t. unfold missing_count. rewrite lower_length. lia.
Qed.

Lemma closest_match_full (word : str) (t : list str) :
  t ∈ tilings self (lower word) → closest_match word t = (t, 0%Z, []).
Proof.
  intros Ht. pose proof (tilings_concat _ _ Ht) as Hcat.
  assert (missing_count word t = 0%Z) as Hzero.
  { unfold missing_count.
    rewrite letters_covered_length, Hcat, lower_length. lia. }
  pose proof (missing_letters_length word t) as Hlen.
  rewrite Hcat, Hzero in Hlen. specialize (Hlen (reflexivity _)).
  unfold closest_match. rewrite Hzero.
  destruct (missing_letters word t); [done|]. simpl in Hlen. lia.
Qed.

(** ** The searches of any speller *)

Lemma closest_match_missing_count_any (word : str) :
  ∃ (res : list match_result) (m : Z),
    find_closest_match self word = Some res ∧
    Forall (λ '(tiling, missing_count, _),
              missing_count
              = (Z.of_nat (length (lower word))
                 - Z.of_nat (letters_covered tiling))%Z
              ∧ missing_count = m) res ∧
    (∀ t, t ∈ partial_tilings self (lower word) →
          (m ≤ missing_count (lower word) t)%Z) ∧
    (∃ t, t ∈ partial_tilings self (lower word) ∧
          missing_count (lower word) t = m).
Proof.
  destruct (least_missing_attained (lower word)
              (partial_tilings self (lower word)))
    as (t0 & Ht0 & Hm); [apply partial_tilings_not_nil|].
  eexists _, (missing_count (lower word) t0).
  split; [apply find_closest_match_spec|].
  rewrite (best_tilings_filter _ _ _ Hm). split; [|split].
  - apply Forall_fmap, Forall_forall. intros t [Ht _]%list_elem_of_filter.
    simpl. by split.
  - apply (least_missing_lower_bound _ _ _ Hm).
  - by exists t0.
Qed.

Lemma closest_match_missing_letters_length_any (word : str) :
  ∃ res : list match_result,
    find_closest_match self word = Some res ∧
    Forall (λ '(tiling, missing_count, _),
              ∃ letters,
                find_missing_letters word tiling = Some letters ∧
                Z.of_nat (length letters) = missing_count) res.
Proof.
  destruct (least_missing_partial_tilings word) as (m & Hm & _).
  eexists. split; [apply (find_closest_match_filter _ _ Hm)|].
  apply Forall_fmap, Forall_forall. intros t [_ Ht]%list_elem_of_filter.
  simpl. exists (missing_letters word t).
  split; [apply find_missing_letters_spec|].
  apply missing_letters_length, sublist_submseteq, partial_tilings_sublist, Ht.
Qed.

Lemma find_all_spellings_round_trip_any (word : str) :
  ∃ solutions : list (list str),
    find_all_spellings self word = Some solutions ∧
    Forall (λ tiling, lower (concat tiling) = lower word) solutions.
Proof.
  eexists. split; [apply find_all_spellings_spec|].
  apply Forall_forall. intros t Ht. by apply tilings_concat.
Qed.

Lemma spell_word_assembles_any (word : str) :
  ∃ (exact : list (list str)) (closest : list match_result),
    find_all_spellings self word = Some exact ∧
    find_closest_match self word = Some closest ∧
    spell_word self word
    = Some (match exact with
            | [] => SpellResult word false [] closest
            | _ :: _ => SpellResult word true exact []
            end).
Proof.
  eexists _, _. split; [apply find_all_spellings_spec|].
  split; [apply find_closest_match_spec|].
  unfold spell_word.
  rewrite find_all_spellings_spec, find_closest_match_spec. simpl.
  by destruct (tilings self (lower word)).
Qed.


Lemma find_closest_match_of_spellable_any (word : str)
    (exact : list (list str)) :
  find_all_spellings self word = Some exact →
  exact ≠ [] →
  find_closest_match self word = Some ((λ t, (t, 0%Z, [])) <$> exact).
Proof.
  rewrite find_all_spellings_spec. intros [= <-] Hne.
  rewrite (find_closest_match_filter _ _ (least_missing_spellable _ Hne)).
  rewrite filter_missing_zero. f_equal.
  apply list_fmap_ext. intros i t Hi.
  apply closest_match_full. by eapply list_elem_of_lookup_2.
Qed.

Lemma find_closest_match_not_empty_any (word : str) :
  ∃ (res : list match_result) (r : spell_result),
    find_closest_match self word = Some res ∧
    res ≠ [] ∧
    spell_word self word = Some r ∧
    ¬ (can_be_spelled r = false ∧ closest_matches r = []).
Proof.
  destruct (least_missing_partial_tilings word) as (m & Hm & _ & t & Ht & Heq).
  pose proof (find_closest_match_filter _ _ Hm) as Hres.
  assert (closest_match word
            <$> filter (λ t, missing_count word t = m)
                  (partial_tilings self (lower word)) ≠ []) as Hne.
  { intros Hnil%fmap_nil_inv.
    by eapply (filter_nil_not_elem_of _ _ t). }
  eexists _, _. split; [exact Hres|]. split; [exact Hne|].
  unfold spell_word. rewrite find_all_spellings_spec, Hres. simpl.
  split; [reflexivity|]. simpl.
  destruct (tilings self (lower word)); simpl; [|by intros [? _]].
  by intros [_ ?].
Qed.

End proofs.

(** ** The alphabet of [__init__] *)

Lemma init_lower : elements_lower init = set_map lower (elements init).
Proof. reflexivity. Qed.

(** Lowercase forms tell the elements apart, so what [original_case] finds
    does not depend on the order in which the set is traversed. *)
Lemma lower_inj_on_elements (e1 e2 : str) :
  e1 ∈ elements init → e2 ∈ elements init → lower e1 = lower e2 → e1 = e2.
Proof.
  assert (Forall (λ a, Forall (λ b, lower a = lower b → a = b)
                         (base.elements (elements init)))
            (base.elements (elements init)))
    as H by (apply (bool_decide_unpack _); vm_compute; exact I).
  intros H1%elem_of_elements H2%elem_of_elements.
  rewrite Forall_forall in H. specialize (H _ H1).
  rewrite Forall_forall in H. exact (H _ H2).
Qed.

Lemma original_case_unique (e : str) :
  e ∈ elements init → original_case init (lower e) = Some e.
Proof.
  intros He.
  destruct (original_case_is_Some init init_lower (lower e)) as [e' He'].
  { apply (elem_of_elements_lower init init_lower). eauto. }
  rewrite He'. f_equal.
  apply original_case_spec in He' as [Hin Hlow].
  apply lower_inj_on_elements; assumption.
Qed.

(** * The claims of the specification

    They are stated of [init], the object [PeriodicSpeller()] builds. *)

(** C1, as the specification states it, fails: for ["Xyz"] the report does
    not combine [canSpell = false] with a closest match made of the empty
    tiling, [missingCount = 3] and the missing letters X, Y, Z. *)
Lemma spell_Xyz_not_all_missing :
  ¬ ∃ r, spell_word init (py "Xyz") = Some r ∧
         can_be_spelled r = false ∧
         ([], 3%Z, py "XYZ") ∈ closest_matches r.
Proof.
  intros (r & Hr & _ & Hin).
  assert (spell_word init (py "Xyz")
          = Some (SpellResult (py "Xyz") false []
                    [([py "Y"], 2%Z, py "XZ")])) as Heq
    by (vm_compute; reflexivity).
  rewrite Heq in Hr. injection Hr as <-. simpl in Hin.
  apply list_elem_of_singleton in Hin. discriminate Hin.
Qed.

(** C1 (amended): [spell("Xyz")] returns [canSpell = false]; since "y" is the
    symbol Y, its closest-match list is the single result with tiling
    ["Y"], [missingCount = 2] and missing letters ["X", "Z"]. *)
Theorem spell_Xyz :
  spell_word init (py "Xyz")
  = Some {| word := py "Xyz";
            can_be_spelled := false;
            exact_solutions := [];
            closest_matches := [([py "Y"], 2%Z, py "XZ")] |}.
Proof. vm_compute. reflexivity. Qed.

(** C2: for every word the closest-match search returns, and every triple
    [(tiling, missingCount, missingLetters)] it returns has
    [missingCount = len(word) - sum(len(symbol) for symbol in tiling)],
    where [word] is what the code measures: the variable [word] of
    [find_closest_match], which line 67 has rebound to the lowercased word.
    All triples carry the same [missingCount] [m], and [m] is the minimum
    over the partial tilings the search explores: none of them misses fewer
    letters, and one of them misses exactly [m]. *)
Theorem closest_match_missing_count (word : str) :
  ∃ (res : list match_result) (m : Z),
    find_closest_match init word = Some res ∧
    Forall (λ '(tiling, missing_count, _),
              missing_count
              = (Z.of_nat (length (lower word))
                 - Z.of_nat (letters_covered tiling))%Z
              ∧ missing_count = m) res ∧
    (∀ t, t ∈ partial_tilings init (lower word) →
          (m ≤ missing_count (lower word) t)%Z) ∧
    (∃ t, t ∈ partial_tilings init (lower word) ∧
          missing_count (lower word) t = m).
Proof. exact (closest_match_missing_count_any init init_lower word). Qed.

(** C3: for every word, and every triple [(tiling, missingCount,
    missingLetters)] the closest-match search returns for it, the
    missing-letter calculator applied to the word and the tiling returns a
    list whose length is [missingCount]. *)
Theorem closest_match_missing_letters_length (word : str) :
  ∃ res : list match_result,
    find_closest_match init word = Some res ∧
    Forall (λ '(tiling, missing_count, _),
              ∃ letters,
                find_missing_letters word tiling = Some letters ∧
                Z.of_nat (length letters) = missing_count) res.
Proof.
  exact (closest_match_missing_letters_length_any init init_lower word).
Qed.

(** C4: for every word the exact decomposer returns, and the symbols of every
    tiling it returns concatenate, case-insensitively, to the word. *)
Theorem find_all_spellings_round_trip (word : str) :
  ∃ solutions : list (list str),
    find_all_spellings init word = Some solutions ∧
    Forall (λ tiling, lower (concat tiling) = lower word) solutions.
Proof. exact (find_all_spellings_round_trip_any init init_lower word). Qed.

(** C5: for every word, [spell_word] returns: when the exact decomposer's
    result is not empty, [canSpell = true], that result as [exactSolutions]
    and no closest matches; otherwise [canSpell = false], no exact solutions
    and the closest-match search's result as [closestMatches]. *)
Theorem spell_word_assembles (word : str) :
  ∃ (exact : list (list str)) (closest : list match_result),
    find_all_spellings init word = Some exact ∧
    find_closest_match init word = Some closest ∧
    spell_word init word
    = Some (match exact with
            | [] => SpellResult word false [] closest
            | _ :: _ => SpellResult word true exact []
            end).
Proof. exact (spell_word_assembles_any init init_lower word). Qed.


(** C7: the missing-letter calculator is a multiset (bag) difference that
    ignores position.  For two words that are anagrams of each other (here
    even up to case, as the calculator lowercases the word) and any tiling,
    it returns for both; what it returns for each word is, uppercased and
    in the order of the word, a selection of the letters of the lowercased
    word in which every letter occurs as often as in the word, less its
    occurrences in the lowercased symbols of the tiling; and the two lists
    of missing letters are equal as multisets. *)
Theorem find_missing_letters_anagram (word1 word2 : str)
    (tiling : list str) :
  lower word1 ≡ₚ lower word2 →
  ∃ remaining1 remaining2 : list ascii,
    find_missing_letters word1 tiling = Some (upper_char <$> remaining1) ∧
    find_missing_letters word2 tiling = Some (upper_char <$> remaining2) ∧
    remaining1 `sublist_of` lower word1 ∧
    remaining2 `sublist_of` lower word2 ∧
    (∀ c, occurrences c remaining1
          = occurrences c (lower word1)
            - occurrences c (lower (concat tiling))) ∧
    (∀ c, occurrences c remaining2
          = occurrences c (lower word2)
            - occurrences c (lower (concat tiling))) ∧
    upper_char <$> remaining1 ≡ₚ upper_char <$> remaining2.
Proof.
  intros Hp.
  exists (bag_difference (lower word1) (lower (concat tiling))),
         (bag_difference (lower word2) (lower (concat tiling))).
  split; [apply find_missing_letters_spec|].
  split; [apply find_missing_letters_spec|].
  split; [apply bag_difference_sublist|].
  split; [apply bag_difference_sublist|].
  split; [intros c; apply bag_difference_occurrences|].
  split; [intros c; apply bag_difference_occurrences|].
  by apply fmap_Permutation, bag_difference_perm.
Qed.

Lemma find_missing_letters_anagram_witness :
  lower (py "Nab") ≡ₚ lower (py "ban") ∧
  ∃ remaining1 remaining2 : list ascii,
    find_missing_letters (py "Nab") [py "B"]
    = Some (upper_char <$> remaining1) ∧
    find_missing_letters (py "ban") [py "B"]
    = Some (upper_char <$> remaining2) ∧
    remaining1 `sublist_of` lower (py "Nab") ∧
    remaining2 `sublist_of` lower (py "ban") ∧
    (∀ c, occurrences c remaining1
          = occurrences c (lower (py "Nab"))
            - occurrences c (lower (concat [py "B"]))) ∧
    (∀ c, occurrences c remaining2
          = occurrences c (lower (py "ban"))
            - occurrences c (lower (concat [py "B"]))) ∧
    upper_char <$> remaining1 ≡ₚ upper_char <$> remaining2.
Proof.
  assert (lower (py "Nab") ≡ₚ lower (py "ban")) as Hp.
  { apply (bool_decide_unpack _). vm_compute. exact I. }
  split; [exact Hp|].
  exact (find_missing_letters_anagram (py "Nab") (py "ban") [py "B"] Hp).
Defined.

(** C8: [spell_word] on the empty string returns [canSpell = true], the one
    exact solution [[]] (the empty tiling) and no closest matches. *)
Theorem spell_word_empty :
  spell_word init []
  = Some {| word := [];
            can_be_spelled := true;
            exact_solutions := [[]];
            closest_matches := [] |}.
Proof. vm_compute. reflexivity. Qed.

(** C9: for every word on which the exact decomposer returns a non-empty
    list, the closest-match search returns the same tilings in the same
    order, each with [missingCount = 0] and no missing letters. *)
Theorem find_closest_match_of_spellable (word : str)
    (exact : list (list str)) :
  find_all_spellings init word = Some exact →
  exact ≠ [] →
  find_closest_match init word = Some ((λ t, (t, 0%Z, [])) <$> exact).
Proof.
  exact (find_closest_match_of_spellable_any init init_lower word exact).
Qed.

Lemma find_closest_match_of_spellable_witness :
  find_all_spellings init (py "Sn") = Some [[py "S"; py "N"]; [py "Sn"]] ∧
  [[py "S"; py "N"]; [py "Sn"]] ≠ [] ∧
  find_closest_match init (py "Sn")
  = Some [([py "S"; py "N"], 0%Z, []); ([py "Sn"], 0%Z, [])].
Proof.
  assert (find_all_spellings init (py "Sn")
          = Some [[py "S"; py "N"]; [py "Sn"]])
    as Hexact by (vm_compute; reflexivity).
  assert ([[py "S"; py "N"]; [py "Sn"]] ≠ @nil (list (list ascii)))
    as Hne by discriminate.
  split; [exact Hexact|]. split; [exact Hne|].
  exact (find_closest_match_of_spellable (py "Sn") _ Hexact Hne).
Defined.

(** C10: for every word (the empty string and words of characters that match
    no symbol included) the closest-match search returns a non-empty list,
    and [spell_word] never reports [canSpell = false] together with an empty
    [closestMatches]. *)
Theorem find_closest_match_not_empty (word : str) :
  ∃ (res : list match_result) (r : spell_result),
    find_closest_match init word = Some res ∧
    res ≠ [] ∧
    spell_word init word = Some r ∧
    ¬ (can_be_spelled r = false ∧ closest_matches r = []).
Proof. exact (find_closest_match_not_empty_any init init_lower word). Qed.

(** * More of what the code does *)

(** ** The missing-letter calculator, letter by letter *)

(** X1: [find_missing_letters] never raises, whatever the word and the
    solution (the solution need not fit the word).  It returns, uppercased
    and in the order they have in the word, letters of the lowercased word:
    each letter as often as it occurs in the word, less the number of times
    it occurs in the lowercased symbols of the solution (never below
    zero). *)
Theorem find_missing_letters_bag (word : str) (solution : list str) :
  ∃ remaining : list ascii,
    find_missing_letters word solution = Some (upper_char <$> remaining) ∧
    remaining `sublist_of` lower word ∧
    ∀ c, occurrences c remaining
         = occurrences c (lower word)
           - occurrences c (lower (concat solution)).
Proof.
  exists (bag_difference (lower word) (lower (concat solution))).
  split; [apply find_missing_letters_spec|].
  split; [apply bag_difference_sublist|].
  intros c. apply bag_difference_occurrences.
Qed.

(** ** The lookup of the canonical case *)

(** X2: the lookup [next(e for e in self.elements if e.lower() == prefix)]
    does not depend on the order in which Python iterates over the set: in
    whatever order [l] the elements come, the lookup of the lowercase form
    of a symbol finds that symbol. *)
Theorem original_case_any_order (l : list str) (e : str) :
  l ≡ₚ base.elements (elements init) →
  e ∈ elements init →
  head (filter (λ x, lower x = lower e) l) = Some e.
Proof.
  intros Hl He.
  assert (e ∈ l) as Hel by (rewrite Hl; apply elem_of_elements, He).
  destruct (filter (λ x, lower x = lower e) l) as [|x k] eqn:Hf.
  - exfalso. by eapply (filter_nil_not_elem_of _ _ e Hf).
  - simpl. f_equal.
    assert (x ∈ filter (λ x, lower x = lower e) l) as Hx
      by (rewrite Hf; apply list_elem_of_here).
    apply list_elem_of_filter in Hx as [Hlow Hx].
    apply lower_inj_on_elements; [|exact He|exact Hlow].
    apply elem_of_elements. by rewrite <- Hl.
Qed.

Lemma original_case_any_order_witness :
  reverse (base.elements (elements init)) ≡ₚ base.elements (elements init) ∧
  py "He" ∈ elements init ∧
  head (filter (λ x, lower x = lower (py "He"))
          (reverse (base.elements (elements init))))
  = Some (py "He").
Proof.
  assert (reverse (base.elements (elements init))
          ≡ₚ base.elements (elements init)) as Hl
    by apply reverse_Permutation.
  assert (py "He" ∈ elements init) as He
    by (apply (bool_decide_unpack _); vm_compute; exact I).
  split; [exact Hl|]. split; [exact He|].
  exact (original_case_any_order _ _ Hl He).
Defined.

Section more_proofs.

Context (self : speller).
Hypothesis Hlower : elements_lower self = set_map lower (elements self).

(** ** The tilings, symbol by symbol *)

Lemma tilings_cons (c : ascii) (r : str) :
  tilings self (c :: r)
  = with_symbol self [c] (tilings self r)
    ++ match r with
       | c' :: r' => with_symbol self [c; c'] (tilings self r')
       | [] => []
       end.
Proof.
  destruct r as [|c' r'].
  - by rewrite tilings_one, app_nil_r.
  - apply tilings_two.
Qed.

Lemma partial_tilings_cons (c : ascii) (r : str) :
  partial_tilings self (c :: r)
  = with_symbol self [c] (partial_tilings self r)
    ++ match r with
       | c' :: r' => with_symbol self [c; c'] (partial_tilings self r')
       | [] => []
       end
    ++ partial_tilings self r.
Proof.
  destruct r as [|c' r'].
  - apply partial_tilings_one.
  - apply partial_tilings_two.
Qed.

#[local] Opaque symbol tilings partial_tilings.

Lemma tilings_elements (rest : str) (t : list str) :
  t ∈ tilings self rest → Forall (.∈ elements self) t.
Proof.
  revert t. induction rest as [|c IH0|c c' r IH1 IH2] using str_ind2; intros t.
  - rewrite tilings_nil. by intros ->%list_elem_of_singleton.
  - rewrite tilings_one.
    intros (e & t' & [He _]%symbol_Some & -> & Ht')%elem_of_with_symbol.
    constructor; [exact He|by apply IH0].
  - rewrite tilings_two. intros [Ht|Ht]%elem_of_app;
      apply elem_of_with_symbol in Ht
        as (e & t' & [He _]%symbol_Some & -> & Ht');
      (constructor; [exact He|]).
    + by apply IH1.
    + by apply IH2.
Qed.

Lemma partial_tilings_elements (rest : str) (t : list str) :
  t ∈ partial_tilings self rest → Forall (.∈ elements self) t.
Proof.
  revert t. induction rest as [|c IH0|c c' r IH1 IH2] using str_ind2; intros t.
  - rewrite partial_tilings_nil. by intros ->%list_elem_of_singleton.
  - rewrite partial_tilings_one. intros [Ht|Ht]%elem_of_app; [|by apply IH0].
    apply elem_of_with_symbol in Ht
      as (e & t' & [He _]%symbol_Some & -> & Ht').
    constructor; [exact He|by apply IH0].
  - rewrite partial_tilings_two.
    intros [Ht|[Ht|Ht]%elem_of_app]%elem_of_app; [| |by apply IH1];
      apply elem_of_with_symbol in Ht
        as (e & t' & [He _]%symbol_Some & -> & Ht');
      (constructor; [exact He|]).
    + by apply IH1.
    + by apply IH2.
Qed.

(** No tiling comes twice: the one-letter and the two-letter branch at a
    position start with symbols of different length. *)
Lemma with_symbol_NoDup (chunk : str) (ts : list (list str)) :
  NoDup ts → NoDup (with_symbol self chunk ts).
Proof.
  intros Hts. unfold with_symbol.
  destruct (symbol self chunk) as [e|]; simpl; [|constructor].
  apply NoDup_fmap_2; [|exact Hts]. by intros t1 t2 [=].
Qed.

Lemma tilings_NoDup (rest : str) : NoDup (tilings self rest).
Proof.
  induction rest as [|c IH0|c c' r IH1 IH2] using str_ind2.
  - rewrite tilings_nil. apply NoDup_singleton.
  - rewrite tilings_one. by apply with_symbol_NoDup.
  - rewrite tilings_two. apply NoDup_app.
    split; [by apply with_symbol_NoDup|].
    split; [|by apply with_symbol_NoDup].
    intros t (e1 & t1 & He1%symbol_length & -> & _)%elem_of_with_symbol
             (e2 & t2 & He2%symbol_length & [= <- _] & _)%elem_of_with_symbol.
    rewrite He1 in He2. discriminate He2.
Qed.

(** ** Spellable or not *)

Lemma least_missing_zero (word : str) :
  least_missing word (partial_tilings self (lower word)) = Fin 0
  ↔ tilings self (lower word) ≠ [].
Proof.
  split; [|by apply least_missing_spellable].
  intros Hm Hnil.
  destruct (least_missing_partial_tilings self word)
    as (m & Hm' & _ & t & Ht & Heq).
  rewrite Hm in Hm'. injection Hm' as <-.
  assert (t ∈ filter (λ t, missing_count word t = 0%Z)
                (partial_tilings self (lower word))) as Hin
    by (by apply list_elem_of_filter).
  rewrite filter_missing_zero, Hnil in Hin. by apply elem_of_nil in Hin.
Qed.

(** What every closest match looks like. *)
Lemma closest_match_shape (word : str) (m : Z) (t : list str) :
  least_missing word (partial_tilings self (lower word)) = Fin m →
  t ∈ filter (λ t, missing_count word t = m)
        (partial_tilings self (lower word)) →
  (0 ≤ m ≤ Z.of_nat (length word))%Z ∧
  missing_count word t = m ∧
  Z.of_nat (length (missing_letters word t)) = m ∧
  (m = 0%Z ↔ tilings self (lower word) ≠ []).
Proof.
  intros Hm [Hmc Ht]%list_elem_of_filter.
  split; [|split; [exact Hmc|split]].
  - pose proof (partial_tilings_missing_nonneg self _ _ Ht).
    unfold missing_count in *. lia.
  - rewrite <- Hmc.
    by apply missing_letters_length, sublist_submseteq,
      (partial_tilings_sublist self).
  - rewrite <- least_missing_zero, Hm. split; [by intros ->|by intros [=]].
Qed.

End more_proofs.

Section symbols_apart.

(** Here the alphabet is moreover one whose lowercase forms tell the symbols
    apart, and whose symbols have one or two letters. *)
Context (self : speller).
Hypothesis Hlower : elements_lower self = set_map lower (elements self).
Hypothesis Hinj : ∀ e1 e2,
  e1 ∈ elements self → e2 ∈ elements self → lower e1 = lower e2 → e1 = e2.
Hypothesis Hlen : ∀ e, e ∈ elements self → length e = 1 ∨ length e = 2.

Lemma symbol_of_element (e : str) :
  e ∈ elements self → symbol self (lower e) = Some e.
Proof.
  intros He. unfold symbol.
  assert (lower e ∈ elements_lower self) as Hin
    by (apply elem_of_elements_lower; eauto).
  rewrite decide_True by exact Hin.
  destruct (original_case_is_Some self Hlower _ Hin) as [e' He'].
  rewrite He'. f_equal.
  apply original_case_spec in He' as [Hin' Hlow]. by apply Hinj.
Qed.

Lemma tilings_complete (t : list str) :
  Forall (.∈ elements self) t → t ∈ tilings self (lower (concat t)).
Proof.
  induction 1 as [|e t He _ IH].
  - rewrite tilings_nil. apply list_elem_of_here.
  - rewrite lower_concat_cons.
    pose proof (symbol_of_element e He) as Hsym.
    pose proof (lower_length e) as Hl.
    destruct (Hlen e He) as [Hone|Htwo].
    + destruct (lower e) as [|c [|]]; simpl in Hl; try lia.
      cbn [app]. rewrite tilings_cons. apply elem_of_app. left.
      apply elem_of_with_symbol. by exists e, t.
    + destruct (lower e) as [|c [|c' [|]]]; simpl in Hl; try lia.
      cbn [app]. rewrite tilings_two. apply elem_of_app. right.
      apply elem_of_with_symbol. by exists e, t.
Qed.

Lemma find_all_spellings_exactly_any (word : str) (t : list str) :
  ∃ solutions : list (list str),
    find_all_spellings self word = Some solutions ∧
    (t ∈ solutions
     ↔ Forall (.∈ elements self) t ∧ lower (concat t) = lower word).
Proof.
  eexists. split; [apply find_all_spellings_spec, Hlower|]. split.
  - intros Ht. split; [by eapply tilings_elements|].
    apply (tilings_concat self _ _ Ht).
  - intros [Hall <-]. by apply tilings_complete.
Qed.

End symbols_apart.

Section process.

Context (self : speller).
Hypothesis Hlower : elements_lower self = set_map lower (elements self).

(** ** Case does not matter *)

Lemma searches_lower (word1 word2 : str) :
  lower word1 = lower word2 →
  find_all_spellings self word1 = find_all_spellings self word2 ∧
  find_closest_match self word1 = find_closest_match self word2.
Proof.
  intros Heq.
  rewrite !(find_all_spellings_spec self Hlower).
  rewrite !(find_closest_match_spec self Hlower).
  by rewrite Heq.
Qed.

Lemma spell_word_lower_any (word1 word2 : str) :
  lower word1 = lower word2 →
  ∃ r1 r2 : spell_result,
    spell_word self word1 = Some r1 ∧
    spell_word self word2 = Some r2 ∧
    can_be_spelled r1 = can_be_spelled r2 ∧
    exact_solutions r1 = exact_solutions r2 ∧
    closest_matches r1 = closest_matches r2.
Proof.
  intros [Hexact Hclosest]%searches_lower.
  unfold spell_word. rewrite Hexact, Hclosest.
  rewrite (find_all_spellings_spec self Hlower).
  rewrite (find_closest_match_spec self Hlower). simpl.
  by eexists _, _.
Qed.

(** ** The shape of the closest matches *)

Lemma closest_match_bounds_any (word : str) :
  ∃ (exact : list (list str)) (res : list match_result),
    find_all_spellings self word = Some exact ∧
    find_closest_match self word = Some res ∧
    Forall (λ '(tiling, missing_count, letters),
              (0 ≤ missing_count ≤ Z.of_nat (length word))%Z ∧
              (missing_count = 0%Z ↔ exact ≠ []) ∧
              find_missing_letters word tiling = Some letters ∧
              Z.of_nat (length letters) = missing_count) res.
Proof.
  destruct (least_missing_partial_tilings self word) as (m & Hm & _).
  eexists _, _. split; [apply find_all_spellings_spec, Hlower|].
  split; [apply (find_closest_match_filter self Hlower _ _ Hm)|].
  apply Forall_fmap, Forall_forall. intros t Ht. simpl.
  destruct (closest_match_shape self _ _ _ Hm Ht)
    as (Hrange & Hmc & Hlen & Hzero).
  rewrite Hmc. split; [exact Hrange|]. split; [exact Hzero|].
  split; [apply find_missing_letters_spec|exact Hlen].
Qed.

Lemma closest_match_symbols_any (word : str) :
  ∃ res : list match_result,
    find_closest_match self word = Some res ∧
    Forall (λ '(tiling, _, _),
              Forall (.∈ elements self) tiling ∧
              lower (concat tiling) `sublist_of` lower word) res.
Proof.
  destruct (least_missing_partial_tilings self word) as (m & Hm & _).
  eexists. split; [apply (find_closest_match_filter self Hlower _ _ Hm)|].
  apply Forall_fmap, Forall_forall. intros t [_ Ht]%list_elem_of_filter.
  simpl. split.
  - by eapply partial_tilings_elements.
  - by apply (partial_tilings_sublist self).
Qed.

(** ** The loop of [process_file] *)

Lemma spell_word_spellable (word : str) :
  tilings self (lower word) ≠ [] →
  ∃ r, spell_word self word = Some r ∧
       word = PeriodicSpeller.word r ∧ can_be_spelled r = true.
Proof.
  intros Hne. unfold spell_word.
  rewrite (find_all_spellings_spec self Hlower).
  rewrite (find_closest_match_spec self Hlower). simpl.
  eexists. split; [reflexivity|]. simpl. split; [done|].
  by destruct (tilings self (lower word)).
Qed.

Lemma spell_word_unspellable (word : str) :
  tilings self (lower word) = [] →
  ∃ (r : spell_result) (t : list str) (rest : list match_result),
    spell_word self word = Some r ∧
    word = PeriodicSpeller.word r ∧
    can_be_spelled r = false ∧
    closest_matches r = closest_match word t :: rest ∧
    missing_letters word t ≠ [].
Proof.
  intros Hnil.
  destruct (least_missing_partial_tilings self word)
    as (m & Hm & _ & t0 & Ht0 & Heq0).
  destruct (filter (λ t, missing_count word t = m)
              (partial_tilings self (lower word))) as [|t ts] eqn:Hf.
  { exfalso. by eapply (filter_nil_not_elem_of _ _ t0 Hf). }
  assert (t ∈ filter (λ t, missing_count word t = m)
                (partial_tilings self (lower word))) as Ht
    by (rewrite Hf; apply list_elem_of_here).
  destruct (closest_match_shape self _ _ _ Hm Ht)
    as (Hrange & _ & Hlen & Hzero).
  unfold spell_word.
  rewrite (find_all_spellings_spec self Hlower), Hnil.
  rewrite (find_closest_match_filter self Hlower _ _ Hm), Hf. simpl.
  eexists _, t, _. split; [reflexivity|]. simpl.
  split; [done|]. split; [done|]. split; [done|].
  intros Hletters. rewrite Hletters in Hlen. simpl in Hlen.
  apply Hzero; [lia|exact Hnil].
Qed.

Lemma process_word_spec (word : str) (results : list spell_result)
    (summary : list str) :
  ∃ (r : spell_result) (ls : list str),
    process_word self word (results, summary)
    = Some (results ++ [r], summary ++ ls) ∧
    spell_word self word = Some r ∧
    Forall2 summary_line (filter (λ r, can_be_spelled r = false) [r]) ls.
Proof.
  unfold process_word.
  destruct (decide (tilings self (lower word) = [])) as [Hnil|Hne].
  - destruct (spell_word_unspellable word Hnil)
      as (r & t & rest & -> & Hw & Hcan & Hclosest & Hletters).
    rewrite Hcan, Hclosest. simpl.
    rewrite decide_True by exact Hletters.
    eexists r, [_]. split; [reflexivity|]. split; [reflexivity|].
    rewrite filter_cons_True by exact Hcan.
    constructor; [|constructor].
    exists t, (missing_count word t), (missing_letters word t), rest.
    split; [exact Hclosest|]. split; [exact Hletters|]. by rewrite <- Hw.
  - destruct (spell_word_spellable word Hne) as (r & -> & Hw & Hcan).
    rewrite Hcan. simpl. exists r, [].
    rewrite app_nil_r. split; [reflexivity|]. split; [reflexivity|].
    rewrite filter_cons_False by (rewrite Hcan; discriminate).
    constructor.
Qed.

Lemma process_words_spec (words : list str) (results : list spell_result)
    (summary : list str) :
  ∃ (rs : list spell_result) (ls : list str),
    for_each (process_word self) words (results, summary)
    = Some (results ++ rs, summary ++ ls) ∧
    Forall2 (λ w r, spell_word self w = Some r) words rs ∧
    Forall2 summary_line (filter (λ r, can_be_spelled r = false) rs) ls.
Proof.
  revert results summary.
  induction words as [|w words IH]; intros results summary.
  - exists [], []. rewrite !app_nil_r. split; [done|]. split; constructor.
  - destruct (process_word_spec w results summary)
      as (r & l & Hstep & Hr & Hl).
    destruct (IH (results ++ [r]) (summary ++ l)) as (rs & ls & Hloop & Hrs & Hls).
    exists (r :: rs), (l ++ ls).
    split; [|split].
    + simpl. rewrite Hstep. simpl. rewrite Hloop.
      by rewrite <- !app_assoc.
    + by constructor.
    + change (r :: rs) with ([r] ++ rs). rewrite filter_app.
      by apply Forall2_app.
Qed.

End process.

(** ** Stripping *)

Lemma lstrip_split (s : str) :
  ∃ k, s = k ++ lstrip s ∧ Forall (λ c, is_space c = true) k.
Proof.
  induction s as [|c s (k & Hk & Hsp)]; [by exists []|].
  simpl. destruct (is_space c) eqn:Hc.
  - exists (c :: k). split; [by rewrite Hk at 1|by constructor].
  - by exists [].
Qed.

Lemma lstrip_head (s : str) (c : ascii) :
  head (lstrip s) = Some c → is_space c = false.
Proof.
  induction s as [|c' s IH]; [done|].
  simpl. destruct (is_space c') eqn:Hc; [exact IH|].
  simpl. by intros [= <-].
Qed.

Lemma rstrip_split (s : str) :
  ∃ k, s = rstrip s ++ k ∧ Forall (λ c, is_space c = true) k.
Proof.
  destruct (lstrip_split (reverse s)) as (k & Hk & Hsp).
  exists (reverse k). split; [|by apply Forall_reverse].
  unfold rstrip. rewrite <- reverse_app, <- Hk. by rewrite reverse_involutive.
Qed.

Lemma rstrip_last (s : str) (c : ascii) :
  last (rstrip s) = Some c → is_space c = false.
Proof.
  unfold rstrip. rewrite last_reverse. apply lstrip_head.
Qed.

Lemma strip_head (s : str) (c : ascii) :
  head (strip s) = Some c → is_space c = false.
Proof.
  unfold strip. intros Hc.
  destruct (rstrip_split (lstrip s)) as (k & Hk & _).
  apply (lstrip_head s). rewrite Hk.
  destruct (rstrip (lstrip s)); [done|exact Hc].
Qed.

Lemma strip_last (s : str) (c : ascii) :
  last (strip s) = Some c → is_space c = false.
Proof. apply rstrip_last. Qed.

Lemma lstrip_id (s : str) :
  (∀ c, head s = Some c → is_space c = false) → lstrip s = s.
Proof.
  destruct s as [|c s]; [done|]. intros Hc. simpl.
  by rewrite (Hc c eq_refl).
Qed.

Lemma strip_idemp (s : str) : strip (strip s) = strip s.
Proof.
  unfold strip at 1. rewrite (lstrip_id (strip s)) by apply strip_head.
  unfold rstrip. rewrite lstrip_id; [apply reverse_involutive|].
  intros c. rewrite head_reverse. apply strip_last.
Qed.

(** ** The alphabet of [__init__], again *)

Lemma init_lengths (e : str) :
  e ∈ elements init → length e = 1 ∨ length e = 2.
Proof.
  assert (Forall (λ e : str, length e = 1 ∨ length e = 2)
            (base.elements (elements init))) as H
    by (apply (bool_decide_unpack _); vm_compute; exact I).
  intros He%elem_of_elements. rewrite Forall_forall in H. exact (H _ He).
Qed.

(** * More properties of the speller and of [process_file] *)

(** X3: the exact decomposer returns exactly the ways of writing the word
    with symbols of the alphabet: a list of strings is among the solutions
    if and only if all its members are element symbols (in their canonical
    case) and it concatenates, case-insensitively, to the word.  In
    particular a word made by concatenating symbols has that segmentation
    among its solutions. *)
Theorem find_all_spellings_exactly (word : str) (t : list str) :
  ∃ solutions : list (list str),
    find_all_spellings init word = Some solutions ∧
    (t ∈ solutions
     ↔ Forall (.∈ elements init) t ∧ lower (concat t) = lower word).
Proof.
  exact (find_all_spellings_exactly_any init init_lower
           lower_inj_on_elements init_lengths word t).
Qed.

(** X4: the exact decomposer never returns the same tiling twice. *)
Theorem find_all_spellings_NoDup (word : str) :
  ∃ solutions : list (list str),
    find_all_spellings init word = Some solutions ∧ NoDup solutions.
Proof.
  eexists. split; [exact (find_all_spellings_spec init init_lower word)|].
  exact (tilings_NoDup init (lower word)).
Qed.

(** X5: the case of the input plays no part: on two words with the same
    lowercase form [spell_word] returns reports that agree on
    [can_be_spelled], [exact_solutions] and [closest_matches] (they differ
    in the field [word] only). *)
Theorem spell_word_case_insensitive (word1 word2 : str) :
  lower word1 = lower word2 →
  ∃ r1 r2 : spell_result,
    spell_word init word1 = Some r1 ∧
    spell_word init word2 = Some r2 ∧
    can_be_spelled r1 = can_be_spelled r2 ∧
    exact_solutions r1 = exact_solutions r2 ∧
    closest_matches r1 = closest_matches r2.
Proof. exact (spell_word_lower_any init init_lower word1 word2). Qed.

Lemma spell_word_case_insensitive_witness :
  lower (py "COBALT") = lower (py "cobalt") ∧
  ∃ r1 r2 : spell_result,
    spell_word init (py "COBALT") = Some r1 ∧
    spell_word init (py "cobalt") = Some r2 ∧
    can_be_spelled r1 = can_be_spelled r2 ∧
    exact_solutions r1 = exact_solutions r2 ∧
    closest_matches r1 = closest_matches r2.
Proof.
  assert (lower (py "COBALT") = lower (py "cobalt")) as Heq
    by (vm_compute; reflexivity).
  split; [exact Heq|].
  exact (spell_word_case_insensitive (py "COBALT") (py "cobalt") Heq).
Defined.

(** X6: in every triple [(tiling, missing_count, letters)] the closest-match
    search returns, [missing_count] lies between 0 and [len(word)] and is 0
    exactly when the exact decomposer finds a tiling, and [letters] is what
    the missing-letter calculator returns for the word and the tiling, a
    list of [missing_count] letters: so the letters are missing exactly
    when the word cannot be spelled. *)
Theorem closest_match_bounds (word : str) :
  ∃ (exact : list (list str)) (res : list match_result),
    find_all_spellings init word = Some exact ∧
    find_closest_match init word = Some res ∧
    Forall (λ '(tiling, missing_count, letters),
              (0 ≤ missing_count ≤ Z.of_nat (length word))%Z ∧
              (missing_count = 0%Z ↔ exact ≠ []) ∧
              find_missing_letters word tiling = Some letters ∧
              Z.of_nat (length letters) = missing_count) res.
Proof. exact (closest_match_bounds_any init init_lower word). Qed.

(** X7: every tiling the closest-match search returns is made of element
    symbols, and its letters, lowercased, are letters of the lowercased
    word in the order they have there (a subsequence of the word). *)
Theorem closest_match_symbols (word : str) :
  ∃ res : list match_result,
    find_closest_match init word = Some res ∧
    Forall (λ '(tiling, _, _),
              Forall (.∈ elements init) tiling ∧
              lower (concat tiling) `sublist_of` lower word) res.
Proof. exact (closest_match_symbols_any init init_lower word). Qed.

(** X8: the loop of [process_file] never raises.  It collects one report
    per word, in order, and [missing_letters_summary] gets one line for each
    word that cannot be spelled, in order, and none for the others: the
    guards on [closest_matches] and on the missing letters never drop a
    word that cannot be spelled. *)
Theorem process_lines_summary (lines : list str) :
  ∃ (results : list spell_result) (summary : list str),
    process_lines lines = Some (results, summary) ∧
    Forall2 (λ w r, spell_word init w = Some r) (read_words lines) results ∧
    Forall2 summary_line
      (filter (λ r, can_be_spelled r = false) results) summary.
Proof.
  destruct (process_words_spec init init_lower (read_words lines) [] [])
    as (rs & ls & Hloop & Hrs & Hls).
  exists rs, ls. split; [exact Hloop|]. by split.
Qed.

(** X9: the words [process_file] hands to the speller are the lines that
    are not blank, stripped: none is empty, and each begins and ends with a
    character that is not white space, so stripping it again changes
    nothing. *)
Theorem read_words_stripped (lines : list str) :
  Forall (λ w, w ≠ [] ∧ strip w = w ∧
               (∃ c, head w = Some c ∧ is_space c = false) ∧
               (∃ c, last w = Some c ∧ is_space c = false))
    (read_words lines).
Proof.
  unfold read_words. apply Forall_fmap, Forall_forall.
  intros line [Hne _]%list_elem_of_filter. simpl.
  split; [exact Hne|]. split; [apply strip_idemp|]. split.
  - destruct (strip line) as [|c w] eqn:Hw; [done|].
    exists c. split; [done|]. apply (strip_head line). by rewrite Hw.
  - destruct (last (strip line)) as [c|] eqn:Hc.
    + exists c. split; [done|]. by apply (strip_last line).
    + by apply last_None in Hc.
Qed.

(** ** Splitting and joining *)

Lemma occurrences_nil (c : ascii) : occurrences c [] = 0.
Proof. done. Qed.

Lemma occurrences_zero (c : ascii) (l : list ascii) :
  c ∉ l ↔ occurrences c l = 0.
Proof.
  induction l as [|y l IH].
  - split; [done|]. intros _. apply not_elem_of_nil.
  - rewrite occurrences_cons, not_elem_of_cons, IH.
    case_decide; [split; [by intros [? _]|lia]|].
    split; [by intros [_ ?]|]. simpl. by split.
Qed.

Lemma occurrences_pos (c : ascii) (l : list ascii) :
  c ∈ l ↔ 1 ≤ occurrences c l.
Proof.
  destruct (decide (c ∈ l)) as [Hin|Hout].
  - split; [|done]. intros _.
    destruct (occurrences c l) eqn:Hocc; [|lia].
    by apply occurrences_zero in Hocc.
  - split; [done|]. apply occurrences_zero in Hout. lia.
Qed.

Lemma split_cons (sep c : ascii) (s : str) :
  split sep (c :: s)
  = if decide (c = sep) then [] :: split sep s
    else match split sep s with
         | part :: parts => (c :: part) :: parts
         | [] => [[c]]
         end.
Proof. done. Qed.

(** [s.split(sep)] has one part more than [s] has separators. *)
Lemma length_split (sep : ascii) (s : str) :
  length (split sep s) = S (occurrences sep s).
Proof.
  induction s as [|c s IH]; [done|].
  rewrite split_cons, occurrences_cons.
  destruct (decide (c = sep)) as [->|Hc].
  - rewrite decide_True by done. simpl. by rewrite IH.
  - rewrite decide_False by done.
    destruct (split sep s); simpl in *; lia.
Qed.

Lemma split_no_sep (sep : ascii) (s : str) :
  sep ∉ s → split sep s = [s].
Proof.
  induction s as [|c s IH]; [done|].
  intros [Hc Hs]%not_elem_of_cons. rewrite split_cons, (IH Hs).
  by rewrite decide_False.
Qed.

Lemma split_app_sep (sep : ascii) (a b : str) :
  sep ∉ a → split sep (a ++ sep :: b) = a :: split sep b.
Proof.
  induction a as [|c a IH]; intros Ha.
  - simpl. by rewrite decide_True.
  - apply not_elem_of_cons in Ha as [Hc Ha].
    rewrite <- app_comm_cons, split_cons, (IH Ha).
    by rewrite decide_False.
Qed.

Lemma elem_of_join (sep : str) (parts : list str) (c : ascii) :
  c ∈ join sep parts → c ∈ sep ∨ ∃ part, part ∈ parts ∧ c ∈ part.
Proof.
  induction parts as [|p [|q parts] IH].
  - by intros ?%elem_of_nil.
  - intros Hc. right. exists p. split; [apply list_elem_of_here|done].
  - change (join sep (p :: q :: parts))
      with (p ++ sep ++ join sep (q :: parts)).
    rewrite !elem_of_app. intros [Hc|[Hc|Hc]]; [|by left|].
    + right. exists p. split; [apply list_elem_of_here|done].
    + destruct (IH Hc) as [?|(part & Hpart & ?)]; [by left|].
      right. exists part. split; [by apply list_elem_of_further|done].
Qed.

Lemma strip_id (s : str) :
  (∀ c, head s = Some c → is_space c = false) →
  (∀ c, last s = Some c → is_space c = false) →
  strip s = s.
Proof.
  intros Hhead Hlast. unfold strip. rewrite (lstrip_id s Hhead).
  unfold rstrip. rewrite lstrip_id; [apply reverse_involutive|].
  intros c. rewrite head_reverse. apply Hlast.
Qed.

Lemma strip_plain (s : str) : Forall plain s → strip s = s.
Proof.
  intros Hs. rewrite Forall_forall in Hs. apply strip_id.
  - intros c Hc%head_Some_elem_of. by apply Hs.
  - intros c Hc%last_Some_elem_of. by apply Hs.
Qed.

Lemma strip_space_plain (c : ascii) :
  plain c → strip (" "%char :: [c]) = [c].
Proof.
  intros (_ & _ & Hc). unfold strip. simpl. rewrite Hc.
  unfold rstrip. simpl. by rewrite Hc.
Qed.

(** ** One line of [analyze_single_missing_letters] *)

Lemma analyze_line_None (line : str) (d : gmap str (list str)) :
  analyze_line line d = None ↔ 2 ≤ occurrences ":" line.
Proof.
  unfold analyze_line.
  pose proof (length_split ":" line) as Hlen.
  pose proof (occurrences_pos ":" line) as Hpos.
  case_decide as Hin.
  - apply Hpos in Hin.
    destruct (split ":" line) as [|country [|letters [|more parts]]];
      simpl in Hlen; try (split; [lia|done]).
    pose proof (length_split "," letters) as Hlen'.
    case_decide as Hmissing; [|split; [done|lia]].
    rewrite length_fmap in Hmissing.
    destruct (split "," letters) as [|letter ?]; simpl in *; [lia|].
    split; [done|lia].
  - split; [done|]. intros Htwo. exfalso. apply Hin, Hpos. lia.
Qed.

Lemma for_each_None {A S} (body : A → S → option S) (P : A → Prop)
    (l : list A) (st : S) :
  (∀ x st, body x st = None ↔ P x) →
  for_each body l st = None ↔ Exists P l.
Proof.
  intros Hbody. revert st. induction l as [|x l IH]; intros st; simpl.
  - split; [done|]. by intros ?%Exists_nil.
  - rewrite Exists_cons. destruct (body x st) as [st'|] eqn:Hx; simpl.
    + rewrite IH. split; [by right|]. intros [HP|?]; [|done].
      apply (Hbody x st) in HP. by rewrite HP in Hx.
    + split; [|done]. intros _. left. by apply (Hbody x st).
Qed.

Lemma plain_upper_lower (c : ascii) :
  plain c → plain (upper_char (lower_char c)).
Proof.
  apply (bool_decide_unpack _).
  by destruct c as [[] [] [] [] [] [] [] []]; vm_compute.
Qed.

Lemma join_singletons_plain (letters : list ascii) (c : ascii) :
  Forall plain letters →
  c ∈ join (py ", ") ((λ c, [c]) <$> letters) →
  c = ","%char ∨ c = " "%char ∨ plain c.
Proof.
  intros Hplain [Hsep|(part & Hpart & Hc)]%elem_of_join.
  - change (py ", ") with [","%char; " "%char] in Hsep.
    apply elem_of_cons in Hsep as [->|Hsep]; [by left|].
    apply list_elem_of_singleton in Hsep as ->. right. by left.
  - apply list_elem_of_fmap in Hpart as (x & -> & Hx).
    apply list_elem_of_singleton in Hc as ->.
    right. right. rewrite Forall_forall in Hplain. by apply Hplain.
Qed.

(** A line of the summary, read back by [analyze_single_missing_letters]. *)
Lemma analyze_summary_line (w : str) (letters : list ascii) :
  Forall plain w → Forall plain letters → letters ≠ [] →
  analyze_line
    (w ++ py ": " ++ join (py ", ") ((λ c, [c]) <$> letters)) ∅
  = Some (match letters with
          | [x] => {[ [x] := [w] ]}
          | _ => ∅
          end).
Proof.
  intros Hw Hletters Hne.
  change (py ": ") with [":"%char; " "%char].
  set (J := join (py ", ") ((λ c, [c]) <$> letters)).
  change (w ++ [":"%char; " "%char] ++ J)
    with (w ++ ":"%char :: " "%char :: J).
  assert (":"%char ∉ w) as Hcolon.
  { intros Hin. rewrite Forall_forall in Hw. by destruct (Hw _ Hin). }
  assert (":"%char ∉ " "%char :: J) as Hcolon'.
  { intros [?|Hin]%elem_of_cons; [done|].
    destruct (join_singletons_plain _ _ Hletters Hin) as [?|[?|[? _]]]; done. }
  unfold analyze_line.
  rewrite decide_True
    by (apply elem_of_app; right; apply list_elem_of_here).
  rewrite (split_app_sep _ _ _ Hcolon), (split_no_sep _ _ Hcolon').
  rewrite (strip_plain w Hw). cbv zeta.
  destruct letters as [|x [|y letters]]; [done| |].
  - apply Forall_cons in Hletters as [Hx _].
    assert (","%char ∉ " "%char :: [x]) as Hcomma.
    { intros [?|Hin]%elem_of_cons; [done|].
      apply list_elem_of_singleton in Hin. by destruct Hx as (_ & ? & _). }
    subst J. simpl join.
    rewrite (split_no_sep _ _ Hcomma). simpl.
    rewrite (strip_space_plain x Hx), lookup_empty. simpl.
    by rewrite insert_empty.
  - assert (","%char ∈ " "%char :: J) as Hcomma.
    { subst J. apply list_elem_of_further. simpl.
      apply list_elem_of_further, list_elem_of_here. }
    apply occurrences_pos in Hcomma.
    pose proof (length_split "," (" "%char :: J)) as Hlen.
    rewrite decide_False; [done|]. rewrite length_fmap. lia.
Qed.

Section parse.

Context (self : speller).
Hypothesis Hlower : elements_lower self = set_map lower (elements self).

Lemma spell_word_closest_letters (w : str) (r : spell_result)
    (tiling : list str) (mc : Z) (letters : list ascii)
    (rest : list match_result) :
  spell_word self w = Some r →
  closest_matches r = (tiling, mc, letters) :: rest →
  PeriodicSpeller.word r = w ∧
  ∃ remaining, letters = upper_char <$> remaining ∧
               remaining `sublist_of` lower w.
Proof.
  unfold spell_word.
  rewrite (find_all_spellings_spec self Hlower).
  rewrite (find_closest_match_spec self Hlower). simpl.
  intros [= <-] Hclosest. simpl in *. split; [done|].
  destruct (tilings self (lower w)); simpl in *; [|done].
  apply fmap_cons_inv in Hclosest as (t & ts & Ht & _).
  injection Ht as _ _ ->. unfold missing_letters.
  eexists. split; [reflexivity|].
  rewrite lower_idemp. apply bag_difference_sublist.
Qed.

End parse.

(** * Properties of [analyze_single_missing_letters] *)

(** X10: [analyze_single_missing_letters] raises (the [ValueError] of the
    unpacking of [line.split(':')]) exactly when some line of the data has
    two colons or more; otherwise it returns a dictionary. *)
Theorem analyze_raises (data : list str) :
  analyze_single_missing_letters data = None
  ↔ Exists (λ line, 2 ≤ occurrences ":" line) data.
Proof.
  unfold analyze_single_missing_letters.
  apply for_each_None. intros line d. apply analyze_line_None.
Qed.

(** X11: the summary lines of [process_file] are lines
    [analyze_single_missing_letters] reads back.  For a word without colon,
    comma or white space, the summary line of its report is parsed without
    error: when the first closest match misses exactly one letter, the
    result files the word under that letter, and when it misses more, the
    result is the empty dictionary. *)
Theorem summary_line_parses (w : str) (r : spell_result) (line : str) :
  Forall plain w →
  spell_word init w = Some r →
  summary_line r line →
  ∃ (tiling : list str) (mc : Z) (letters : list ascii)
    (rest : list match_result),
    closest_matches r = (tiling, mc, letters) :: rest ∧
    analyze_single_missing_letters [line]
    = Some (match letters with
            | [x] => {[ [x] := [w] ]}
            | _ => ∅
            end).
Proof.
  intros Hw Hr (tiling & mc & letters & rest & Hclosest & Hne & ->).
  destruct (spell_word_closest_letters init init_lower _ _ _ _ _ _
              Hr Hclosest) as (-> & remaining & -> & Hsub).
  exists tiling, mc, (upper_char <$> remaining), rest.
  split; [exact Hclosest|].
  unfold analyze_single_missing_letters.
  change (for_each analyze_line [?l] ?d) with (analyze_line l d ≫= Some).
  rewrite bind_Some, analyze_summary_line; [done|exact Hw| |exact Hne].
  apply Forall_fmap, Forall_forall. intros c Hc. simpl.
  apply sublist_submseteq in Hsub.
  apply (elem_of_submseteq _ _ _ Hc) in Hsub.
  apply list_elem_of_fmap in Hsub as (c' & -> & Hc').
  apply plain_upper_lower. rewrite Forall_forall in Hw. by apply Hw.
Qed.

Lemma summary_line_parses_witness :
  Forall plain (py "Cobalt") ∧
  spell_word init (py "Cobalt")
  = Some (SpellResult (py "Cobalt") false []
            [([py "C"; py "O"; py "B"; py "Al"], 1%Z, py "T");
             ([py "Co"; py "B"; py "Al"], 1%Z, py "T")]) ∧
  summary_line
    (SpellResult (py "Cobalt") false []
       [([py "C"; py "O"; py "B"; py "Al"], 1%Z, py "T");
        ([py "Co"; py "B"; py "Al"], 1%Z, py "T")])
    (py "Cobalt: T") ∧
  ∃ (tiling : list str) (mc : Z) (letters : list ascii)
    (rest : list match_result),
    [([py "C"; py "O"; py "B"; py "Al"], 1%Z, py "T");
     ([py "Co"; py "B"; py "Al"], 1%Z, py "T")]
    = (tiling, mc, letters) :: rest ∧
    analyze_single_missing_letters [py "Cobalt: T"]
    = Some (match letters with
            | [x] => {[ [x] := [py "Cobalt"] ]}
            | _ => ∅
            end).
Proof.
  assert (Forall plain (py "Cobalt")) as Hw
    by (apply (bool_decide_unpack _); vm_compute; exact I).
  assert (spell_word init (py "Cobalt")
          = Some (SpellResult (py "Cobalt") false []
                    [([py "C"; py "O"; py "B"; py "Al"], 1%Z, py "T");
                     ([py "Co"; py "B"; py "Al"], 1%Z, py "T")])) as Hr
    by (vm_compute; reflexivity).
  assert (summary_line
            (SpellResult (py "Cobalt") false []
               [([py "C"; py "O"; py "B"; py "Al"], 1%Z, py "T");
                ([py "Co"; py "B"; py "Al"], 1%Z, py "T")])
            (py "Cobalt: T")) as Hline.
  { eexists _, _, _, _. split; [reflexivity|]. split; [discriminate|].
    reflexivity. }
  split; [exact Hw|]. split; [exact Hr|]. split; [exact Hline|].
  exact (summary_line_parses _ _ _ Hw Hr Hline).
Defined.

(** X12: what one more line does to the result.  A line
    [country + ":" + letters] with no other colon files the stripped
    country under the stripped text after the colon, after the countries
    already filed there, unless that text holds a comma (more than one
    letter), in which case nothing changes.  The text after the colon may
    be blank: the country is then filed under the empty letter. *)
Theorem analyze_one_more_line (data : list str)
    (d : gmap str (list str)) (country letters : str) :
  analyze_single_missing_letters data = Some d →
  (":"%char ∉ country) →
  (":"%char ∉ letters) →
  analyze_single_missing_letters (data ++ [country ++ ":"%char :: letters])
  = Some (if decide (","%char ∈ letters) then d
          else <[strip letters :=
                   default [] (d !! strip letters) ++ [strip country]]> d).
Proof.
  intros Hd Hcountry Hletters. unfold analyze_single_missing_letters in *.
  rewrite for_each_app, Hd. simpl. rewrite bind_Some.
  unfold analyze_line.
  rewrite decide_True
    by (apply elem_of_app; right; apply list_elem_of_here).
  rewrite (split_app_sep _ _ _ Hcountry), (split_no_sep _ _ Hletters).
  cbv zeta. rewrite length_fmap, length_split.
  destruct (decide (","%char ∈ letters)) as [Hin|Hout].
  - apply occurrences_pos in Hin. rewrite decide_False by lia. done.
  - rewrite (split_no_sep _ _ Hout).
    apply occurrences_zero in Hout. rewrite Hout.
    by rewrite decide_True by done.
Qed.

Lemma analyze_one_more_line_witness :
  analyze_single_missing_letters [py "Albania: A"]
  = Some {[ py "A" := [py "Albania"] ]} ∧
  (":"%char ∉ py "Croatia") ∧
  (":"%char ∉ py " A") ∧
  analyze_single_missing_letters
    ([py "Albania: A"] ++ [py "Croatia" ++ ":"%char :: py " A"])
  = Some (if decide (","%char ∈ py " A") then {[ py "A" := [py "Albania"] ]}
          else <[strip (py " A") :=
                   default [] (({[ py "A" := [py "Albania"] ]}
                                  : gmap str (list str)) !! strip (py " A"))
                   ++ [strip (py "Croatia")]]>
                 {[ py "A" := [py "Albania"] ]}).
Proof.
  assert (analyze_single_missing_letters [py "Albania: A"]
          = Some {[ py "A" := [py "Albania"] ]}) as Hd
    by (vm_compute; reflexivity).
  assert (":"%char ∉ py "Croatia") as Hcountry
    by (apply (bool_decide_unpack _); vm_compute; exact I).
  assert (":"%char ∉ py " A") as Hletters
    by (apply (bool_decide_unpack _); vm_compute; exact I).
  split; [exact Hd|]. split; [exact Hcountry|]. split; [exact Hletters|].
  exact (analyze_one_more_line _ _ _ _ Hd Hcountry Hletters).
Defined.

(** X13: lines without a colon are skipped: they can be taken out of the
    data without changing what [analyze_single_missing_letters] does. *)
Theorem analyze_skips_lines_without_colon (data : list str) :
  analyze_single_missing_letters (filter (":"%char ∈.) data)
  = analyze_single_missing_letters data.
Proof.
  unfold analyze_single_missing_letters. generalize (∅ : gmap str (list str)).
  induction data as [|line data IH]; intros d; [done|].
  destruct (decide (":"%char ∈ line)) as [Hin|Hout].
  - rewrite filter_cons_True by done. simpl.
    destruct (analyze_line line d); simpl; [apply IH|done].
  - rewrite filter_cons_False by done. simpl.
    assert (analyze_line line d = Some d) as ->
      by (unfold analyze_line; by rewrite decide_False).
    simpl. apply IH.
Qed.
